(** * Treasure hunt: a shallow embedding of [game.js]

    The game is played on a square grid.  The player starts in (1,1); a monster
    and a number of treasures are placed on distinct random squares.  The
    module-level variables of the script become the fields of the record
    [game]; [console.log] becomes a list of emitted lines; [Math.random] is the
    sequence of numbers it returns.

    Numbers of the script are integers throughout (coordinates and counters),
    modelled by [Z]; the only fractional numbers are those returned by
    [Math.random], modelled by rationals. *)

From Stdlib Require Import ZArith QArith Qround Ascii String.
From stdpp Require Import base list strings pretty.

Local Open Scope Z_scope.

(** ** Points *)

(** [toPoint(x, y)]: the object [{x, y, toString}].  The method is the same for
    every point, so a point is its two coordinates. *)
Record point : Type := toPoint { x : Z; y : Z }.

Global Instance point_eq_dec : EqDecision point.
Proof. solve_decision. Defined.

(** The method [toString] of a point: [`(${this.x}, ${this.y})`]. *)
Definition toString (p : point) : string :=
  "(" +:+ pretty p.(x) +:+ ", " +:+ pretty p.(y) +:+ ")".

(** A variable or an element of an array that holds a point or [undefined] is
    an [option point]; [undefined], the only falsy value that occurs there, is
    [None]. *)
Definition falsy (p : option point) : bool :=
  match p with None => true | Some _ => false end.

(** [isEqualPoint(p1, p2)] *)
Definition isEqualPoint (p1 p2 : option point) : bool :=
  if falsy p1 && falsy p2 then true
  else if falsy p1 || falsy p2 then false
  else
    match p1, p2 with
    | Some a, Some b => (a.(x) =? b.(x)) && (a.(y) =? b.(y))
    | _, _ => false
    end.

(** [findPoint(list, pt)]: the loop [for (i = 0; i < list.length; i++)], here
    with the index [i] of the head of the remaining part of the array. *)
Fixpoint findPoint_from (i : nat) (l : list (option point)) (pt : option point) : option nat :=
  match l with
  | [] => None
  | p :: l' => if isEqualPoint p pt then Some i else findPoint_from (S i) l' pt
  end.

Definition findPoint (l : list (option point)) (pt : option point) : option nat :=
  findPoint_from 0 l pt.

(** [isAdjacent(p1, p2)] *)
Definition isAdjacent (p1 p2 : point) : bool :=
  if (p2.(y) <? p1.(y) - 1) || (p2.(y) >? p1.(y) + 1) then false
  else if (p2.(x) <? p1.(x) - 1) || (p2.(x) >? p1.(x) + 1) then false
  else true.

(** ** Strings of the command line *)

(** A command is a string of code units below 256.  [toLowerCase] maps the
    capital letters A-Z and the capital letters of the Latin-1 block
    (U+00C0-U+00DE without the multiplication sign U+00D7) to their small
    forms, 32 places further. *)
Definition toLowerCase_unit (c : ascii) : ascii :=
  let n := nat_of_ascii c in
  if ((65 <=? n) && (n <=? 90) ||
      (192 <=? n) && (n <=? 222) && negb (n =? 215))%nat
  then ascii_of_nat (n + 32) else c.

Fixpoint toLowerCase (s : string) : string :=
  match s with
  | EmptyString => EmptyString
  | String c s' => String (toLowerCase_unit c) (toLowerCase s')
  end.

(** The white space and line terminators that [trim] removes, among the code
    units below 256: tab, line feed, vertical tab, form feed, carriage return,
    space and no-break space. *)
Definition isWhiteSpace (c : ascii) : bool :=
  let n := nat_of_ascii c in
  ((9 <=? n) && (n <=? 13) || (n =? 32) || (n =? 160))%nat.

Fixpoint trimStart (s : string) : string :=
  match s with
  | EmptyString => EmptyString
  | String c s' => if isWhiteSpace c then trimStart s' else s
  end.

Fixpoint trimEnd (s : string) : string :=
  match s with
  | EmptyString => EmptyString
  | String c s' =>
      match trimEnd s' with
      | EmptyString => if isWhiteSpace c then EmptyString else String c EmptyString
      | t => String c t
      end
  end.

Definition trim (s : string) : string := trimEnd (trimStart s).

(** A string is truthy when it is not empty. *)
Definition truthy (s : string) : bool :=
  match s with EmptyString => false | String _ _ => true end.

(** ** The variables of the script *)

Record game : Type := Game {
  treasures : list string;
  treasureLocations : list (option point);
  foundTreasureCount : Z;
  monsterLocation : point;
  playerLocation : point
}.

(** The values the variables are declared with. *)
Definition declared : game :=
  {| treasures := ["gem"; "ruby"; "diamond"; "coin"; "emerald"; "goblet"];
     treasureLocations := [];
     foundTreasureCount := 0;
     monsterLocation := toPoint 0 0;
     playerLocation := toPoint 0 0 |}.

Definition set_treasureLocations (l : list (option point)) (s : game) : game :=
  {| treasures := treasures s; treasureLocations := l;
     foundTreasureCount := foundTreasureCount s;
     monsterLocation := monsterLocation s; playerLocation := playerLocation s |}.

Definition set_foundTreasureCount (n : Z) (s : game) : game :=
  {| treasures := treasures s; treasureLocations := treasureLocations s;
     foundTreasureCount := n;
     monsterLocation := monsterLocation s; playerLocation := playerLocation s |}.

Definition set_monsterLocation (p : point) (s : game) : game :=
  {| treasures := treasures s; treasureLocations := treasureLocations s;
     foundTreasureCount := foundTreasureCount s;
     monsterLocation := p; playerLocation := playerLocation s |}.

Definition set_playerLocation (p : point) (s : game) : game :=
  {| treasures := treasures s; treasureLocations := treasureLocations s;
     foundTreasureCount := foundTreasureCount s;
     monsterLocation := monsterLocation s; playerLocation := p |}.

(** ** Effects: the variables and the console *)

(** A function of the script reads and assigns the variables and prints lines:
    it maps the variables to its result, the new variables and the lines
    printed, in order. *)
Definition Eff (A : Type) : Type := game → A * game * list string.

Global Instance Eff_ret : MRet Eff := λ A a s, (a, s, []).

Global Instance Eff_bind : MBind Eff := λ A B f m s,
  let '(a, s1, o1) := m s in
  let '(b, s2, o2) := f a s1 in
  (b, s2, o1 ++ o2).

Definition console_log (line : string) : Eff unit := λ s, (tt, s, [line]).
Definition read {A : Type} (var : game → A) : Eff A := λ s, (var s, s, []).
Definition assign (upd : game → game) : Eff unit := λ s, (tt, upd s, []).

(** The three components of a run. *)
Definition result {A : Type} (r : A * game * list string) : A := r.1.1.
Definition after {A : Type} (r : A * game * list string) : game := r.1.2.
Definition printed {A : Type} (r : A * game * list string) : list string := r.2.

Definition newline : string := String "010"%char EmptyString.

(** [`${treasures[treasure]}`]: an index outside the array reads [undefined]. *)
Definition name_at (names : list string) (i : nat) : string :=
  default "undefined" (names !! i).

Definition msg_location (p : point) : string :=
  newline +:+ "You are now in location " +:+ toString p.
Definition msg_death : string := "Oh no!!  You've been eaten by a hungry monster!".
Definition msg_found (name : string) : string := "You found the " +:+ name +:+ "!".
Definition msg_win (count : Z) : string :=
  "You found all " +:+ pretty count +:+ " treasures!  You win!!".
Definition msg_remaining (remaining : Z) : string :=
  "You have " +:+ pretty remaining +:+ " more treasure" +:+
  (if remaining >? 1 then "s" else "") +:+ " to find!".
Definition msg_growl : string := "You can hear a growling sound nearby!".
Definition msg_what : string := "What??".
Definition msg_unknown : string := "I don't know what you mean".
Definition msg_blocked : string := "You can't move in that direction!".

(** ** [enterLocation(location)] *)

(** The block [if (treasure !== undefined) { ... }]: [Some b] when it leaves
    the function by [return b], [None] when control falls through. *)
Definition collect (treasure : option nat) : Eff (option bool) :=
  match treasure with
  | Some treasure =>
      names ← read treasures;
      console_log (msg_found (name_at names treasure)) ;;
      assign (λ s, set_treasureLocations (<[treasure := None]> (treasureLocations s)) s) ;;
      assign (λ s, set_foundTreasureCount (foundTreasureCount s + 1) s) ;;
      count ← read foundTreasureCount;
      if count =? Z.of_nat (length names) then
        console_log (msg_win count) ;; mret (Some false)
      else
        let remaining := Z.of_nat (length names) - count in
        console_log (msg_remaining remaining) ;; mret None
  | None => mret None
  end.

Definition enterLocation (location : point) : Eff bool :=
  assign (set_playerLocation location) ;;
  console_log (msg_location location) ;;
  monster ← read monsterLocation;
  player ← read playerLocation;
  if isEqualPoint (Some monster) (Some player) then
    console_log msg_death ;; mret false
  else
    locations ← read treasureLocations;
    returned ← collect (findPoint locations (Some player));
    match returned with
    | Some b => mret b
    | None =>
        (if isAdjacent monster player then console_log msg_growl else mret tt) ;;
        mret true
    end.

(** ** States and random numbers to run the script on *)

(** A state in which a treasure still lies where the monster is. *)
Definition lair : game :=
  {| treasures := ["coin"; "gem"];
     treasureLocations := [Some (toPoint 2 2); Some (toPoint 1 2)];
     foundTreasureCount := 0;
     monsterLocation := toPoint 2 2;
     playerLocation := toPoint 2 1 |}.

(** A sequence of random numbers for the grid of the script. *)
Definition samples (n : nat) : Q := ((Z.of_nat n * 7 + 3) mod 11) # 11.

(** The game [initGame] sets up from the declared variables with them. *)
Definition opening : game :=
  {| treasures := ["gem"; "ruby"; "diamond"; "coin"; "emerald"; "goblet"];
     treasureLocations :=
       [Some (toPoint 3 1); Some (toPoint 5 3); Some (toPoint 1 4);
        Some (toPoint 2 1); Some (toPoint 4 2); Some (toPoint 1 5)];
     foundTreasureCount := 0;
     monsterLocation := toPoint 2 5;
     playerLocation := toPoint 1 1 |}.

(** Eight numbers, repeated for ever; the pairs of neighbours that start at
    even places, and those that start at odd places, each give the four points
    of the grid. *)
Definition dice (n : nat) : Q :=
  match (n mod 8)%nat with
  | 2%nat | 3%nat | 5%nat | 6%nat => 1 # 2
  | _ => 0
  end.

(** Two treasures: with the player and the monster they fill that grid. *)
Definition pair : game :=
  {| treasures := ["gem"; "ruby"];
     treasureLocations := [];
     foundTreasureCount := 0;
     monsterLocation := toPoint 0 0;
     playerLocation := toPoint 0 0 |}.

(** ** The grid and the random numbers *)

Section Grid.

(** The side of the grid, [GRID_SIZE]; the script fixes it to 5. *)
Variable GRID_SIZE : positive.

(** [Math.random()]: [random n] is the number the [n]-th call returns. *)
Variable random : nat → Q.

Definition in_grid (p : point) : Prop :=
  1 ≤ p.(x) ≤ Z.pos GRID_SIZE ∧ 1 ≤ p.(y) ≤ Z.pos GRID_SIZE.

(** [Math.floor(Math.random() * GRID_SIZE) + 1], at the [n]-th call of
    [Math.random]. *)
Definition randomCoordinate (n : nat) : Z :=
  Qfloor (random n * inject_Z (Z.pos GRID_SIZE)) + 1.

(** The point built by one turn of the loop of [chooseUnoccupiedLocation] when
    [n] calls of [Math.random] came before: the first call gives [x], the
    second [y]. *)
Definition randomPoint (n : nat) : point :=
  toPoint (randomCoordinate n) (randomCoordinate (S n)).

(** ** [chooseUnoccupiedLocation(usedLocations)] *)

(** The [do ... while] loop, run for at most [fuel] turns; [n] counts the calls
    of [Math.random] made so far.  The result is the point returned, the array
    [usedLocations] after the [push], and the new count. *)
Fixpoint chooseUnoccupiedLocation (fuel : nat) (usedLocations : list (option point)) (n : nat)
  : option (point * list (option point) * nat) :=
  match fuel with
  | O => None
  | S fuel' =>
      let location := randomPoint n in
      match findPoint usedLocations (Some location) with
      | Some _ => chooseUnoccupiedLocation fuel' usedLocations (S (S n))
      | None => Some (location, usedLocations ++ [Some location], S (S n))
      end
  end.

(** ** [initGame()] *)

(** The loop [for (let i = 0; i < treasures.length; i++)], with [todo] turns
    left. *)
Fixpoint placeTreasures (fuel : nat) (todo : nat) (locations usedLocations : list (option point))
  (n : nat) : option (list (option point) * list (option point) * nat) :=
  match todo with
  | O => Some (locations, usedLocations, n)
  | S todo' =>
      match chooseUnoccupiedLocation fuel usedLocations n with
      | None => None
      | Some (location, usedLocations', n') =>
          placeTreasures fuel todo' (locations ++ [Some location]) usedLocations' n'
      end
  end.

(** [initGame()], each call of [chooseUnoccupiedLocation] running for at most
    [fuel] turns.  It prints nothing. *)
Definition initGame (fuel : nat) (s : game) (n : nat) : option (game * nat) :=
  let s := set_treasureLocations [] s in
  let s := set_foundTreasureCount 0 s in
  let s := set_playerLocation (toPoint 1 1) s in
  let usedLocations := [Some (playerLocation s)] in
  match chooseUnoccupiedLocation fuel usedLocations n with
  | None => None
  | Some (monster, usedLocations, n) =>
      let s := set_monsterLocation monster s in
      match placeTreasures fuel (length (treasures s)) (treasureLocations s) usedLocations n with
      | None => None
      | Some (locations, _, n) => Some (set_treasureLocations locations s, n)
      end
  end.

(** ** [processCommand(command)] *)

(** The chain of tests on the command: [inl b] when it leaves the function by
    [return b], [inr newLocation] when control reaches the test of
    [newLocation] ([None] is [undefined]). *)
Definition dispatch (command : string) : Eff (bool + option point) :=
  player ← read playerLocation;
  if (command =? "q")%string then mret (inl false)
  else if (command =? "l")%string then
    mret (inr (if player.(x) >? 1
               then Some (toPoint (player.(x) - 1) player.(y)) else None))
  else if (command =? "r")%string then
    mret (inr (if player.(x) <? Z.pos GRID_SIZE
               then Some (toPoint (player.(x) + 1) player.(y)) else None))
  else if (command =? "u")%string then
    mret (inr (if player.(y) >? 1
               then Some (toPoint player.(x) (player.(y) - 1)) else None))
  else if (command =? "d")%string then
    mret (inr (if player.(y) <? Z.pos GRID_SIZE
               then Some (toPoint player.(x) (player.(y) + 1)) else None))
  else
    console_log msg_unknown ;; mret (inl true).

(** What the first statement leaves in [command]. *)
Definition normalize (command : string) : string :=
  if truthy command then trim (toLowerCase command) else command.

Definition processCommand (command : string) : Eff bool :=
  let command := normalize command in
  if negb (truthy command) || (String.length command =? 0)%nat then
    console_log msg_what ;; mret true
  else
    dispatched ← dispatch command;
    match dispatched with
    | inl b => mret b
    | inr None => console_log msg_blocked ;; mret true
    | inr (Some newLocation) => enterLocation newLocation
    end.

(** ** Notions the properties are stated with *)

(** The variables after the treasure at index [i] was collected. *)
Definition collected (i : nat) (s : game) : game :=
  set_foundTreasureCount (foundTreasureCount s + 1)
    (set_treasureLocations (<[i := None]> (treasureLocations s)) s).

(** The warning printed when the monster is nearby. *)
Definition growl (monster player : point) : list string :=
  if isAdjacent monster player then [msg_growl] else [].

(** The move from [s] to [s'] collects a treasure lying at [location]: one
    entry holding [location] becomes absent and the count grows by one. *)
Definition collects (s : game) (location : point) (s' : game) : Prop :=
  ∃ i : nat,
    treasureLocations s !! i = Some (Some location) ∧
    treasureLocations s' = <[i := None]> (treasureLocations s) ∧
    foundTreasureCount s' = foundTreasureCount s + 1.

(** A string of white space only (the empty string included). *)
Fixpoint blank (s : string) : bool :=
  match s with
  | EmptyString => true
  | String c s' => isWhiteSpace c && blank s'
  end.

(** The three ways a command is turned down, each with the line it prints:
    white space only; a text that is none of the five commands; a move that
    would leave the grid. *)
Inductive rejection (s : game) (command : string) : string → Prop :=
  | reject_blank :
      blank command = true →
      rejection s command msg_what
  | reject_unknown :
      normalize command ≠ EmptyString →
      normalize command ∉ ["q"; "l"; "r"; "u"; "d"] →
      rejection s command msg_unknown
  | reject_left :
      normalize command = "l" → (playerLocation s).(x) ≤ 1 →
      rejection s command msg_blocked
  | reject_right :
      normalize command = "r" → Z.pos GRID_SIZE ≤ (playerLocation s).(x) →
      rejection s command msg_blocked
  | reject_up :
      normalize command = "u" → (playerLocation s).(y) ≤ 1 →
      rejection s command msg_blocked
  | reject_down :
      normalize command = "d" → Z.pos GRID_SIZE ≤ (playerLocation s).(y) →
      rejection s command msg_blocked.

(** What a move does: enter the candidate location, or print that the way is
    blocked. *)
Definition move (candidate : option point) (s : game) : bool * game * list string :=
  match candidate with
  | Some newLocation => enterLocation newLocation s
  | None => (true, s, [msg_blocked])
  end.

(** [Math.random] returns a number from 0 up to, but not including, 1. *)
Definition unit_interval : Prop := ∀ n : nat, (0 <= random n)%Q ∧ (random n < 1)%Q.

(** Every point of the grid comes up in some turn of any loop of
    [chooseUnoccupiedLocation], wherever in the sequence the loop starts. *)
Definition fair : Prop :=
  ∀ (n : nat) (p : point), in_grid p → ∃ m : nat, randomPoint (n + 2 * m) = p.

(** The [k]-th point of the grid, row by row. *)
Definition grid_point (k : Z) : point :=
  toPoint (k / Z.pos GRID_SIZE + 1) (k mod Z.pos GRID_SIZE + 1).

Definition grid_points : list point :=
  grid_point <$> seqZ 0 (Z.pos GRID_SIZE * Z.pos GRID_SIZE).

(** The placement [initGame] is to produce: the player in (1,1); a location for
    each treasure name; player, monster and treasures on distinct points of
    the grid; nothing found yet. *)
Definition placed (s : game) : Prop :=
  playerLocation s = toPoint 1 1 ∧
  foundTreasureCount s = 0 ∧
  ∃ ps : list point,
    treasureLocations s = Some <$> ps ∧
    length ps = length (treasures s) ∧
    NoDup (playerLocation s :: monsterLocation s :: ps) ∧
    Forall in_grid (playerLocation s :: monsterLocation s :: ps).

(** The number of treasure entries whose location is absent. *)
Fixpoint absent (l : list (option point)) : nat :=
  match l with
  | [] => 0
  | None :: l' => S (absent l')
  | Some _ :: l' => absent l'
  end.

(** The count of found treasures is the number of absent entries, and lies
    between 0 and the number of treasures. *)
Definition found_count_ok (s : game) : Prop :=
  foundTreasureCount s = Z.of_nat (absent (treasureLocations s)) ∧
  0 ≤ foundTreasureCount s ≤ Z.of_nat (length (treasures s)).

(** The two arrays stand for one sequence of treasures, each with its name and
    its location: they have the same length. *)
Definition paired (s : game) : Prop :=
  length (treasureLocations s) = length (treasures s).

(** The states the script can be in once [initGame] has run: the script calls
    [initGame], then [enterLocation] and [processCommand]. *)
Inductive reachable : game → Prop :=
  | reachable_initGame (fuel : nat) (s : game) (n : nat) (s' : game) (n' : nat) :
      initGame fuel s n = Some (s', n') → reachable s'
  | reachable_enterLocation (s : game) (location : point) :
      reachable s → reachable (after (enterLocation location s))
  | reachable_processCommand (s : game) (command : string) :
      reachable s → reachable (after (processCommand command s)).


(** ** The script around the functions *)

(** The number of treasure entries whose location is still present. *)
Fixpoint present (l : list (option point)) : nat :=
  match l with
  | [] => 0
  | None :: l' => present l'
  | Some _ :: l' => S (present l')
  end.

(** The first two statements the script runs: [initGame()] and then
    [enterLocation(toPoint(1,1))]; the result is that of [enterLocation]
    together with the count of the calls of [Math.random]. *)
Definition start (fuel : nat) (s : game) (n : nat)
  : option (bool * game * list string * nat) :=
  match initGame fuel s n with
  | None => None
  | Some (s', n') => Some (enterLocation (toPoint 1 1) s', n')
  end.

(** What the listener of the ["line"] event asks of the interface of
    [readline] once the command is processed: [rl.close()] or [rl.prompt()].
    Neither prints a line through [console.log]; the prompt is written by
    [readline] itself. *)
Inductive readline_action : Type :=
  | rl_close
  | rl_prompt.

Definition msg_thanks : string := "Thanks for playing!".

(** The listener of the ["line"] event; its result is the action taken. *)
Definition onLine (command : string) : Eff readline_action :=
  running ← processCommand command;
  if negb running then
    console_log msg_thanks ;; mret rl_close
  else
    mret rl_prompt.

(** The listener run on the lines that [readline] delivers, in order. *)
Fixpoint session (lines : list string) : Eff unit :=
  match lines with
  | [] => mret tt
  | command :: lines' => onLine command ;; session lines'
  end.

(** The characters of a number in decimal: the digits and the minus sign. *)
Definition numeral_char (c : ascii) : bool :=
  let n := nat_of_ascii c in
  ((48 <=? n) && (n <=? 57) || (n =? 45))%nat.

Fixpoint numeral (s : string) : bool :=
  match s with
  | EmptyString => true
  | String c s' => numeral_char c && numeral s'
  end.

(** * Properties *)

(** ** Facts about points *)

Lemma isEqualPoint_spec (p1 p2 : option point) : isEqualPoint p1 p2 = true ↔ p1 = p2.
Proof.
  destruct p1 as [[a b]|], p2 as [[c d]|]; cbn; try (split; congruence).
  rewrite andb_true_iff, !Z.eqb_eq. split; [intros [-> ->]; done | intros [= -> ->]; done].
Qed.

Lemma isEqualPoint_refl (p : option point) : isEqualPoint p p = true.
Proof. by apply isEqualPoint_spec. Qed.

Lemma isEqualPoint_neq (p1 p2 : option point) : p1 ≠ p2 → isEqualPoint p1 p2 = false.
Proof.
  intros Hne. destruct (isEqualPoint p1 p2) eqn:E; [|done].
  by apply isEqualPoint_spec in E.
Qed.

(** C8: [isAdjacent p1 p2] holds exactly when the two points differ by at most
    one on each axis; hence it is symmetric, and every point is adjacent to
    itself. *)
Theorem isAdjacent_chebyshev :
  (∀ p1 p2 : point,
      isAdjacent p1 p2 = true ↔
      Z.abs (p1.(x) - p2.(x)) ≤ 1 ∧ Z.abs (p1.(y) - p2.(y)) ≤ 1) ∧
  (∀ p1 p2 : point, isAdjacent p1 p2 = isAdjacent p2 p1) ∧
  (∀ p : point, isAdjacent p p = true).
Proof.
  split; [|split].
  - intros [a b] [c d]. unfold isAdjacent; simpl. rewrite !Z.gtb_ltb.
    destruct (d <? b - 1) eqn:E1, (b + 1 <? d) eqn:E2,
             (c <? a - 1) eqn:E3, (a + 1 <? c) eqn:E4; simpl;
      rewrite ?Z.ltb_lt, ?Z.ltb_ge in *; split; try discriminate; try done;
      try lia.
  - intros [a b] [c d]. unfold isAdjacent; simpl. rewrite !Z.gtb_ltb.
    destruct (d <? b - 1) eqn:E1, (b + 1 <? d) eqn:E2,
             (c <? a - 1) eqn:E3, (a + 1 <? c) eqn:E4,
             (b <? d - 1) eqn:E5, (d + 1 <? b) eqn:E6,
             (a <? c - 1) eqn:E7, (c + 1 <? a) eqn:E8; simpl;
      rewrite ?Z.ltb_lt, ?Z.ltb_ge in *; try done; lia.
  - intros [a b]. unfold isAdjacent; simpl. rewrite !Z.gtb_ltb.
    destruct (b <? b - 1) eqn:E1, (b + 1 <? b) eqn:E2,
             (a <? a - 1) eqn:E3, (a + 1 <? a) eqn:E4; simpl;
      rewrite ?Z.ltb_lt, ?Z.ltb_ge in *; try done; lia.
Qed.

(** ** Searching an array of points *)

Lemma findPoint_from_None (i : nat) (l : list (option point)) (pt : option point) :
  findPoint_from i l pt = None ↔ pt ∉ l.
Proof.
  revert i. induction l as [|p l IH]; intros i; simpl.
  - split; [intros _; apply not_elem_of_nil | done].
  - destruct (isEqualPoint p pt) eqn:E.
    + apply isEqualPoint_spec in E as ->. split; [done|].
      intros Hn. destruct Hn. apply elem_of_cons. by left.
    + rewrite IH, not_elem_of_cons. split; [|tauto].
      intros Hn. split; [|done]. intros ->.
      rewrite isEqualPoint_refl in E. discriminate.
Qed.

Lemma findPoint_from_Some (i j : nat) (l : list (option point)) (pt : option point) :
  findPoint_from i l pt = Some j →
  (i ≤ j)%nat ∧ l !! (j - i)%nat = Some pt ∧
  ∀ k, (k < j - i)%nat → l !! k ≠ Some pt.
Proof.
  revert i. induction l as [|p l IH]; intros i; simpl; [done|].
  destruct (isEqualPoint p pt) eqn:E.
  - intros [= <-]. apply isEqualPoint_spec in E as ->.
    rewrite Nat.sub_diag. split; [lia|]. split; [done|]. intros k Hk; lia.
  - intros H. apply IH in H as (Hle & Hj & Hmin).
    replace (j - i)%nat with (S (j - S i)) by lia.
    split; [lia|]. split; [done|].
    intros [|k] Hk; simpl.
    + intros [= ->]. by rewrite isEqualPoint_refl in E.
    + apply Hmin. lia.
Qed.

Lemma findPoint_None (l : list (option point)) (pt : option point) :
  findPoint l pt = None ↔ pt ∉ l.
Proof. apply findPoint_from_None. Qed.

Lemma findPoint_Some (l : list (option point)) (pt : option point) (j : nat) :
  findPoint l pt = Some j →
  l !! j = Some pt ∧ ∀ k, (k < j)%nat → l !! k ≠ Some pt.
Proof.
  intros H. apply findPoint_from_Some in H as (_ & Hj & Hmin).
  rewrite Nat.sub_0_r in Hj, Hmin. done.
Qed.

Lemma findPoint_is_Some (l : list (option point)) (pt : option point) :
  pt ∈ l → ∃ j, findPoint l pt = Some j.
Proof.
  intros Hin. destruct (findPoint l pt) as [j|] eqn:E; [by exists j|].
  by apply findPoint_None in E.
Qed.

Lemma findPoint_from_absent (i : nat) (l : list (option point)) (pt : option point) :
  findPoint_from i l pt = None ↔ pt ∉ l.
Proof using Type.
  revert i. induction l as [|p l IH]; intros i; simpl.
  - split; [intros _; apply not_elem_of_nil | done].
  - destruct (isEqualPoint p pt) eqn:E.
    + apply isEqualPoint_spec in E as ->. split; [done|].
      intros Hn. destruct Hn. apply list_elem_of_here.
    + rewrite IH, not_elem_of_cons. split; [|by intros [_ ?]].
      intros Hn. split; [|done]. intros ->.
      rewrite isEqualPoint_refl in E. discriminate.
Qed.

Lemma findPoint_absent (l : list (option point)) (pt : option point) :
  findPoint l pt = None ↔ pt ∉ l.
Proof using Type. apply findPoint_from_absent. Qed.

(** ** [enterLocation], case by case *)

Lemma collect_Some (i : nat) (s : game) :
  collect (Some i) s =
  let found := msg_found (name_at (treasures s) i) in
  if foundTreasureCount s + 1 =? Z.of_nat (length (treasures s)) then
    (Some false, collected i s, [found; msg_win (foundTreasureCount s + 1)])
  else
    (None, collected i s,
     [found; msg_remaining (Z.of_nat (length (treasures s)) - (foundTreasureCount s + 1))]).
Proof.
  unfold collect, mbind, Eff_bind, mret, Eff_ret, assign, console_log, read. cbn.
  by destruct (foundTreasureCount s + 1 =? Z.of_nat (length (treasures s))).
Qed.

Lemma enterLocation_eq (location : point) (s : game) :
  enterLocation location s =
  let s1 := set_playerLocation location s in
  if decide (location = monsterLocation s) then
    (false, s1, [msg_location location; msg_death])
  else
    match findPoint (treasureLocations s) (Some location) with
    | Some i =>
        let s2 := collected i s1 in
        let found := msg_found (name_at (treasures s) i) in
        if foundTreasureCount s + 1 =? Z.of_nat (length (treasures s)) then
          (false, s2, [msg_location location; found; msg_win (foundTreasureCount s + 1)])
        else
          (true, s2,
           [msg_location location; found;
            msg_remaining (Z.of_nat (length (treasures s)) - (foundTreasureCount s + 1))]
           ++ growl (monsterLocation s) location)
    | None => (true, s1, msg_location location :: growl (monsterLocation s) location)
    end.
Proof.
  unfold enterLocation, mbind, Eff_bind, mret, Eff_ret, assign, console_log, read.
  cbn [set_playerLocation monsterLocation playerLocation treasureLocations].
  destruct (decide (location = monsterLocation s)) as [->|Hne].
  - by rewrite isEqualPoint_refl.
  - rewrite isEqualPoint_neq by congruence.
    change (treasureLocations (set_playerLocation location s))
      with (treasureLocations s).
    destruct (findPoint (treasureLocations s) (Some location)) as [i|].
    + rewrite collect_Some.
      cbn [set_playerLocation treasures foundTreasureCount].
      destruct (foundTreasureCount s + 1 =? Z.of_nat (length (treasures s))).
      * done.
      * unfold growl. by destruct (isAdjacent (monsterLocation s) location).
    + cbn. unfold growl. by destruct (isAdjacent (monsterLocation s) location).
Qed.

(** [enterLocation] makes the location it is given the player's. *)
Lemma playerLocation_enterLocation (location : point) (s : game) :
  playerLocation (after (enterLocation location s)) = location.
Proof.
  rewrite enterLocation_eq. cbn zeta.
  destruct (decide (location = monsterLocation s)); [done|].
  destruct (findPoint (treasureLocations s) (Some location)); [|done].
  by destruct (foundTreasureCount s + 1 =? Z.of_nat (length (treasures s))).
Qed.

(** ** Death, victory and the frame of [enterLocation] *)

(** C1: entering the monster's location prints the death message after the
    location line and returns [false]; no treasure is marked found and the
    count of found treasures is unchanged, whatever the array of treasure
    locations holds at that place. *)
Theorem enterLocation_death (s : game) (location : point) :
  location = monsterLocation s →
  result (enterLocation location s) = false ∧
  printed (enterLocation location s) = [msg_location location; msg_death] ∧
  treasureLocations (after (enterLocation location s)) = treasureLocations s ∧
  foundTreasureCount (after (enterLocation location s)) = foundTreasureCount s.
Proof.
  intros Hm. rewrite enterLocation_eq. cbn zeta.
  by rewrite decide_True by done.
Qed.

Lemma insert_None_neq (l : list (option point)) (i : nat) (p : point) :
  l !! i = Some (Some p) → <[i := None]> l ≠ l.
Proof.
  intros Hi Heq.
  assert (H : <[i := None]> l !! i = Some None).
  { apply list_lookup_insert_eq. by eapply lookup_lt_Some. }
  rewrite Heq, Hi in H. discriminate.
Qed.

(** A move that left the array of treasure locations as it was collected
    nothing. *)
Ltac no_collect Hi Hins :=
  cbn in Hins; exfalso; symmetry in Hins;
  exact (insert_None_neq _ _ _ Hi Hins).

(** C2: [enterLocation] returns [false] exactly when the new location is the
    monster's, or a treasure is still present at the new location and the count
    of found treasures is one short of the number of treasures; in terms of
    the state left behind: exactly when the new location is the monster's, or
    the move collects a treasure and the count thereby reaches the number of
    treasures.  In the winning case the entry found becomes absent, the count
    becomes the number of treasures, and the lines printed are the location
    line, the line naming the treasure and the win line with that number. *)
Theorem enterLocation_stops (s : game) (location : point) :
  (result (enterLocation location s) = false ↔
   location = monsterLocation s ∨
   (Some location ∈ treasureLocations s ∧
    foundTreasureCount s + 1 = Z.of_nat (length (treasures s)))) ∧
  (result (enterLocation location s) = false ↔
   location = monsterLocation s ∨
   (collects s location (after (enterLocation location s)) ∧
    foundTreasureCount (after (enterLocation location s))
    = Z.of_nat (length (treasures s)))) ∧
  (location ≠ monsterLocation s →
   Some location ∈ treasureLocations s →
   foundTreasureCount s + 1 = Z.of_nat (length (treasures s)) →
   result (enterLocation location s) = false ∧
   collects s location (after (enterLocation location s)) ∧
   foundTreasureCount (after (enterLocation location s))
   = Z.of_nat (length (treasures s)) ∧
   ∃ i : nat,
     findPoint (treasureLocations s) (Some location) = Some i ∧
     printed (enterLocation location s) =
     [msg_location location; msg_found (name_at (treasures s) i);
      msg_win (Z.of_nat (length (treasures s)))]).
Proof using Type.
  rewrite enterLocation_eq. cbn zeta.
  destruct (decide (location = monsterLocation s)) as [Hm|Hm].
  - split; [split; [by left | done]|]. split; [split; [by left | done]|]. done.
  - destruct (findPoint (treasureLocations s) (Some location)) as [i|] eqn:Hf.
    + pose proof Hf as [Hi _]%findPoint_Some.
      assert (Hin : Some location ∈ treasureLocations s)
        by (apply list_elem_of_lookup; by exists i).
      destruct (foundTreasureCount s + 1 =? Z.of_nat (length (treasures s))) eqn:Hc.
      * apply Z.eqb_eq in Hc.
        assert (Hcollects :
          collects s location (collected i (set_playerLocation location s)))
          by (by exists i).
        split; [split; [intros _; by right | done]|].
        split; [split; [intros _; by right | done]|].
        intros _ _ _. split; [done|]. split; [done|]. split; [done|].
        exists i. split; [done|]. cbn. by rewrite Hc.
      * apply Z.eqb_neq in Hc.
        split; [split; [done|]; by intros [?|[_ ?]]|].
        split; [split; [done|]; intros [?|[_ Hn]]; [done|]; cbn in Hn; done|].
        done.
    + apply findPoint_absent in Hf.
      split; [split; [done|]; by intros [?|[? _]]|].
      split; [|done]. split; [done|].
      intros [?|[(i & Hi & Hins & _) _]]; [done|]. no_collect Hi Hins.
Qed.

(** C7: [enterLocation] assigns the player's location; the monster's location
    and the treasure names are unchanged (the grid size is a constant of the
    script and no variable at all); the array of treasure locations and the
    count are either both unchanged, or the entry [findPoint] returned, which
    held the new location, becomes absent, the count grows by one, and every
    other entry is as before. *)
Theorem enterLocation_frame (s : game) (location : point) :
  playerLocation (after (enterLocation location s)) = location ∧
  monsterLocation (after (enterLocation location s)) = monsterLocation s ∧
  treasures (after (enterLocation location s)) = treasures s ∧
  length (treasureLocations (after (enterLocation location s)))
  = length (treasureLocations s) ∧
  ((treasureLocations (after (enterLocation location s)) = treasureLocations s ∧
    foundTreasureCount (after (enterLocation location s)) = foundTreasureCount s) ∨
   (∃ i : nat,
      findPoint (treasureLocations s) (Some location) = Some i ∧
      treasureLocations s !! i = Some (Some location) ∧
      treasureLocations (after (enterLocation location s)) !! i = Some None ∧
      (∀ j : nat, j ≠ i →
         treasureLocations (after (enterLocation location s)) !! j
         = treasureLocations s !! j) ∧
      foundTreasureCount (after (enterLocation location s))
      = foundTreasureCount s + 1)).
Proof.
  rewrite enterLocation_eq. cbn zeta.
  destruct (decide (location = monsterLocation s)) as [Hm|Hm].
  - repeat split; by left.
  - destruct (findPoint (treasureLocations s) (Some location)) as [i|] eqn:Hf.
    + assert (Hframe :
        ∀ r : bool * game * list string,
          after r = collected i (set_playerLocation location s) →
          playerLocation (after r) = location ∧
          monsterLocation (after r) = monsterLocation s ∧
          treasures (after r) = treasures s ∧
          length (treasureLocations (after r)) = length (treasureLocations s) ∧
          ((treasureLocations (after r) = treasureLocations s ∧
            foundTreasureCount (after r) = foundTreasureCount s) ∨
           (∃ i0 : nat,
              Some i = Some i0 ∧
              treasureLocations s !! i0 = Some (Some location) ∧
              treasureLocations (after r) !! i0 = Some None ∧
              (∀ j : nat, j ≠ i0 →
                 treasureLocations (after r) !! j = treasureLocations s !! j) ∧
              foundTreasureCount (after r) = foundTreasureCount s + 1))).
      { intros r ->. cbn. apply findPoint_Some in Hf as [Hi _].
        split; [done|]. split; [done|]. split; [done|].
        split; [apply length_insert|]. right. exists i.
        split; [done|]. split; [done|].
        split; [apply list_lookup_insert_eq; by eapply lookup_lt_Some|].
        split; [|done]. intros j Hj. by apply list_lookup_insert_ne. }
      destruct (foundTreasureCount s + 1 =? Z.of_nat (length (treasures s)));
        by apply Hframe.
    + repeat split; by left.
Qed.

(** ** Commands *)

Lemma toLowerCase_unit_space (c : ascii) :
  isWhiteSpace c = true → toLowerCase_unit c = c.
Proof.
  destruct c as [[] [] [] [] [] [] [] []]; vm_compute; intros H;
    first [reflexivity | discriminate H].
Qed.

Lemma trimStart_blank (s : string) : blank s = true → trimStart s = EmptyString.
Proof.
  induction s as [|c s IH]; simpl; [done|].
  intros [Hc Hs]%andb_true_iff. rewrite Hc. by apply IH.
Qed.

Lemma toLowerCase_blank (s : string) : blank s = true → toLowerCase s = s.
Proof.
  induction s as [|c s IH]; simpl; [done|].
  intros [Hc Hs]%andb_true_iff.
  by rewrite (toLowerCase_unit_space c Hc), (IH Hs).
Qed.

Lemma normalize_blank (command : string) :
  blank command = true → normalize command = EmptyString.
Proof.
  intros Hb. unfold normalize. destruct (truthy command) eqn:Ht.
  - unfold trim. rewrite (toLowerCase_blank command Hb).
    by rewrite (trimStart_blank command Hb).
  - by destruct command.
Qed.

Lemma processCommand_eq (command : string) (s : game) :
  processCommand command s =
  let c := normalize command in
  let player := playerLocation s in
  if negb (truthy c) then (true, s, [msg_what])
  else if (c =? "q")%string then (false, s, [])
  else if (c =? "l")%string then
    move (if player.(x) >? 1
          then Some (toPoint (player.(x) - 1) player.(y)) else None) s
  else if (c =? "r")%string then
    move (if player.(x) <? Z.pos GRID_SIZE
          then Some (toPoint (player.(x) + 1) player.(y)) else None) s
  else if (c =? "u")%string then
    move (if player.(y) >? 1
          then Some (toPoint player.(x) (player.(y) - 1)) else None) s
  else if (c =? "d")%string then
    move (if player.(y) <? Z.pos GRID_SIZE
          then Some (toPoint player.(x) (player.(y) + 1)) else None) s
  else (true, s, [msg_unknown]).
Proof.
  assert (Hmove : ∀ candidate : option point,
    (let '(b, s2, o2) :=
       match candidate with
       | Some newLocation => enterLocation newLocation
       | None => console_log msg_blocked ;; mret true
       end s in (b, s2, [] ++ o2)) = move candidate s).
  { intros [newLocation|]; [|done]. cbn [move].
    by destruct (enterLocation newLocation s) as [[b s2] o2]. }
  unfold processCommand. cbn zeta.
  destruct (normalize command) as [|c0 c] eqn:Hn; [done|].
  cbn [truthy negb orb String.length Nat.eqb].
  unfold dispatch, mbind, Eff_bind, mret, Eff_ret, read, console_log.
  repeat match goal with
         | |- context [(?a =? ?b)%string] => destruct (a =? b)%string; [by auto|]
         end.
  done.
Qed.

(** C4: a command that is blank, unknown or a move blocked by the edge of the
    grid prints exactly its line, returns [true] and leaves every variable of
    the game as it was.  ([processCommand] is a total function: there is no
    exceptional outcome.) *)
Theorem processCommand_rejection (s : game) (command line : string) :
  rejection s command line →
  processCommand command s = (true, s, [line]).
Proof.
  intros Hr. rewrite processCommand_eq. cbn zeta.
  destruct Hr as [Hb | Hne Hnot | Hc Hedge | Hc Hedge | Hc Hedge | Hc Hedge].
  - by rewrite (normalize_blank command Hb).
  - destruct (normalize command) as [|c0 c] eqn:Hn; [done|].
    cbn [truthy negb].
    repeat match goal with
           | |- context [(?a =? ?b)%string] =>
               destruct (String.eqb_spec a b) as [Heq|_];
               [exfalso; apply Hnot; rewrite Heq;
                repeat first [apply list_elem_of_here | apply list_elem_of_further]|]
           end.
    done.
  - rewrite Hc. cbn. rewrite Z.gtb_ltb.
    by destruct (Z.ltb_spec 1 (playerLocation s).(x)); [lia|].
  - rewrite Hc. cbn.
    by destruct (Z.ltb_spec (playerLocation s).(x) (Z.pos GRID_SIZE)); [lia|].
  - rewrite Hc. cbn. rewrite Z.gtb_ltb.
    by destruct (Z.ltb_spec 1 (playerLocation s).(y)); [lia|].
  - rewrite Hc. cbn.
    by destruct (Z.ltb_spec (playerLocation s).(y) (Z.pos GRID_SIZE)); [lia|].
Qed.

Lemma move_playerLocation (candidate : option point) (s : game) :
  playerLocation (after (move candidate s)) = default (playerLocation s) candidate.
Proof.
  destruct candidate as [newLocation|]; [|done]. cbn [move default].
  apply playerLocation_enterLocation.
Qed.

(** C10: a player inside the grid is still inside after any command; and
    [enterLocation] itself makes whatever location it is given the player's,
    so the bound comes from the guards of [processCommand]. *)
Theorem processCommand_in_grid (s : game) (command : string) :
  in_grid (playerLocation s) →
  in_grid (playerLocation (after (processCommand command s))) ∧
  (∀ location : point,
     playerLocation (after (enterLocation location s)) = location).
Proof.
  intros [Hx Hy]. split; [|intros location; apply playerLocation_enterLocation].
  rewrite processCommand_eq. cbn zeta.
  destruct (negb (truthy (normalize command))); [by split|].
  destruct (normalize command =? "q")%string; [by split|].
  repeat match goal with
         | |- context [(?a =? ?b)%string] =>
             destruct (a =? b)%string;
             [rewrite move_playerLocation, ?Z.gtb_ltb;
              match goal with
              | |- context [?a <? ?b] => destruct (Z.ltb_spec a b)
              end; cbn; split; cbn; lia|]
         end.
  by split.
Qed.

(** ** Placing the monster and the treasures *)

Lemma randomCoordinate_range (n : nat) :
  unit_interval → 1 ≤ randomCoordinate n ≤ Z.pos GRID_SIZE.
Proof.
  intros Hu. destruct (Hu n) as [H0 H1]. unfold randomCoordinate.
  set (g := inject_Z (Z.pos GRID_SIZE)).
  assert (Hg : (0 < g)%Q) by (unfold g; rewrite <- (Zlt_Qlt 0); lia).
  split.
  - assert (H : 0 ≤ Qfloor (random n * g)); [|lia].
    change 0 with (Qfloor 0). apply Qfloor_resp_le.
    apply Qmult_le_0_compat; [done | by apply Qlt_le_weak].
  - assert (H : Qfloor (random n * g) < Z.pos GRID_SIZE); [|lia].
    rewrite Zlt_Qlt. fold g.
    apply (Qle_lt_trans _ (random n * g)%Q); [apply Qfloor_le|].
    rewrite <- (Qmult_1_l g) at 2. by apply Qmult_lt_compat_r.
Qed.

Lemma randomPoint_in_grid (n : nat) : unit_interval → in_grid (randomPoint n).
Proof.
  intros Hu. split; cbn; by apply randomCoordinate_range.
Qed.

(** *** [chooseUnoccupiedLocation] *)

(** What a call that returns has done: the point comes from some turn of the
    loop, was not in the array, and is now its last element. *)
Lemma chooseUnoccupiedLocation_Some (fuel : nat) (used : list (option point)) (n : nat)
    (location : point) (used' : list (option point)) (n' : nat) :
  chooseUnoccupiedLocation fuel used n = Some (location, used', n') →
  (∃ m : nat, location = randomPoint (n + 2 * m) ∧ n' = (n + 2 * S m)%nat) ∧
  (Some location ∉ used) ∧
  used' = used ++ [Some location].
Proof.
  revert n. induction fuel as [|fuel IH]; intros n; simpl; [done|].
  destruct (findPoint used (Some (randomPoint n))) as [i|] eqn:Hf.
  - intros H. apply IH in H as ((m & -> & ->) & Hfresh & ->).
    split; [|done]. exists (S m).
    split; [f_equal; lia | lia].
  - intros [= <- <- <-]. apply findPoint_None in Hf.
    split; [|done]. exists 0%nat. split; [f_equal; lia | lia].
Qed.

(** More turns do not change the result of a call that returned. *)
Lemma chooseUnoccupiedLocation_mono (fuel fuel' : nat) (used : list (option point)) (n : nat)
    (r : point * list (option point) * nat) :
  (fuel ≤ fuel')%nat →
  chooseUnoccupiedLocation fuel used n = Some r →
  chooseUnoccupiedLocation fuel' used n = Some r.
Proof.
  revert fuel' n. induction fuel as [|fuel IH]; intros fuel' n Hle; simpl; [done|].
  destruct fuel' as [|fuel']; [lia|]. simpl.
  destruct (findPoint used (Some (randomPoint n))); [|done].
  apply IH. lia.
Qed.

(** The loop ends as soon as a turn draws a point that is not in the array. *)
Lemma chooseUnoccupiedLocation_ends (used : list (option point)) (n m : nat) :
  Some (randomPoint (n + 2 * m)) ∉ used →
  ∃ (location : point) (n' : nat),
    chooseUnoccupiedLocation (S m) used n = Some (location, used ++ [Some location], n').
Proof.
  revert n. induction m as [|m IH]; intros n Hfresh.
  - replace (n + 2 * 0)%nat with n in Hfresh by lia.
    apply findPoint_None in Hfresh. simpl. rewrite Hfresh. eauto.
  - cbn [chooseUnoccupiedLocation].
    destruct (findPoint used (Some (randomPoint n))) eqn:Hf; [|eauto].
    apply IH. by replace (S (S n) + 2 * m)%nat with (n + 2 * S m)%nat by lia.
Qed.

(** *** The points of the grid, listed *)

Lemma length_grid_points :
  length grid_points = Z.to_nat (Z.pos GRID_SIZE * Z.pos GRID_SIZE).
Proof. unfold grid_points. by rewrite length_fmap, length_seqZ. Qed.

Lemma NoDup_grid_points : NoDup grid_points.
Proof.
  apply NoDup_fmap_2_strong; [|apply NoDup_seqZ].
  intros j k _ _ [= Hd Hm].
  rewrite (Z.div_mod j (Z.pos GRID_SIZE)), (Z.div_mod k (Z.pos GRID_SIZE)) by lia.
  lia.
Qed.

Lemma elem_of_grid_points (p : point) : p ∈ grid_points ↔ in_grid p.
Proof.
  split.
  - intros (k & -> & Hk%elem_of_seqZ)%list_elem_of_fmap.
    unfold grid_point. split; cbn.
    + assert (0 ≤ k / Z.pos GRID_SIZE < Z.pos GRID_SIZE); [|lia].
      split; [apply Z.div_pos; lia | apply Z.div_lt_upper_bound; lia].
    + pose proof (Z.mod_pos_bound k (Z.pos GRID_SIZE)). lia.
  - intros [Hx Hy]. apply list_elem_of_fmap.
    destruct p as [a b]; cbn in *.
    exists ((a - 1) * Z.pos GRID_SIZE + (b - 1)). split.
    + assert (Hd : ((a - 1) * Z.pos GRID_SIZE + (b - 1)) / Z.pos GRID_SIZE = a - 1)
        by (rewrite Z.div_add_l, Z.div_small by lia; lia).
      assert (Hm : ((a - 1) * Z.pos GRID_SIZE + (b - 1)) `mod` Z.pos GRID_SIZE = b - 1)
        by (rewrite Z.add_comm, Z.mod_add, Z.mod_small by lia; lia).
      unfold grid_point. rewrite Hd, Hm. f_equal; lia.
    + apply elem_of_seqZ. nia.
Qed.

(** An array that does not hold every point of the grid misses one. *)
Lemma unsaturated_free (used : list (option point)) :
  ¬ (∀ p : point, in_grid p → Some p ∈ used) →
  ∃ p : point, in_grid p ∧ Some p ∉ used.
Proof.
  intros Hnot.
  destruct (decide (Forall (λ p, Some p ∈ used) grid_points)) as [Hall|Hex].
  - exfalso. apply Hnot. intros p Hp.
    rewrite Forall_forall in Hall. by apply Hall, elem_of_grid_points.
  - apply not_Forall_Exists in Hex; [|apply _].
    apply Exists_exists in Hex as (p & Hp & Hfree).
    exists p. split; [by apply elem_of_grid_points | exact Hfree].
Qed.

(** An array shorter than the number of points of the grid misses one. *)
Lemma short_unsaturated (used : list (option point)) :
  Z.of_nat (length used) < Z.pos GRID_SIZE * Z.pos GRID_SIZE →
  ¬ (∀ p : point, in_grid p → Some p ∈ used).
Proof.
  intros Hlen Hall.
  assert (Hsub : Some <$> grid_points ⊆+ used).
  { apply NoDup_submseteq.
    - apply NoDup_fmap_2; [apply _ | apply NoDup_grid_points].
    - intros o (p & -> & Hp)%list_elem_of_fmap.
      by apply Hall, elem_of_grid_points. }
  apply submseteq_length in Hsub.
  rewrite length_fmap, length_grid_points in Hsub. lia.
Qed.

Lemma chooseUnoccupiedLocation_det (fuel1 fuel2 : nat) (used : list (option point)) (n : nat)
    (r1 r2 : point * list (option point) * nat) :
  chooseUnoccupiedLocation fuel1 used n = Some r1 →
  chooseUnoccupiedLocation fuel2 used n = Some r2 →
  r1 = r2.
Proof.
  intros H1 H2.
  apply (chooseUnoccupiedLocation_mono fuel1 (fuel1 `max` fuel2)) in H1; [|lia].
  apply (chooseUnoccupiedLocation_mono fuel2 (fuel1 `max` fuel2)) in H2; [|lia].
  congruence.
Qed.

Lemma fair_draws_free (used : list (option point)) (n : nat) :
  fair →
  ¬ (∀ p : point, in_grid p → Some p ∈ used) →
  ∃ m : nat, Some (randomPoint (n + 2 * m)) ∉ used.
Proof.
  intros Hfair (p & Hp & Hfree)%unsaturated_free.
  destruct (Hfair n p Hp) as [m Hm]. exists m. by rewrite Hm.
Qed.

(** The call returns as soon as some turn of the loop draws a point that is
    not in [usedLocations]. *)
Lemma chooseUnoccupiedLocation_draws_free (usedLocations : list (option point)) (n : nat) :
  unit_interval →
  (∃ m : nat, Some (randomPoint (n + 2 * m)) ∉ usedLocations) →
  ∃ (fuel : nat) (location : point) (n' : nat),
    chooseUnoccupiedLocation fuel usedLocations n
    = Some (location, usedLocations ++ [Some location], n') ∧
    in_grid location ∧
    (Some location ∉ usedLocations) ∧
    ∀ (fuel' : nat) (r : point * list (option point) * nat),
      chooseUnoccupiedLocation fuel' usedLocations n = Some r →
      r = (location, usedLocations ++ [Some location], n').
Proof.
  intros Hu [m Hfresh].
  destruct (chooseUnoccupiedLocation_ends usedLocations n m Hfresh)
    as (location & n' & Hrun).
  exists (S m), location, n'. split; [done|].
  destruct (chooseUnoccupiedLocation_Some _ _ _ _ _ _ Hrun)
    as ((k & -> & _) & Hnew & _).
  split; [by apply randomPoint_in_grid|]. split; [done|].
  intros fuel' r Hr.
  exact (chooseUnoccupiedLocation_det _ _ _ _ _ _ Hr Hrun).
Qed.

(** C9: when [Math.random] returns numbers of the unit interval in a fair
    sequence, and [usedLocations] does not hold every point of the grid, the
    call of [chooseUnoccupiedLocation] returns: some number of turns suffices;
    the point returned is in the grid, was not in [usedLocations], and is
    appended to it; and no bound on the number of turns gives another
    result. *)
Theorem chooseUnoccupiedLocation_returns (usedLocations : list (option point)) (n : nat) :
  unit_interval →
  fair →
  ¬ (∀ p : point, in_grid p → Some p ∈ usedLocations) →
  ∃ (fuel : nat) (location : point) (n' : nat),
    chooseUnoccupiedLocation fuel usedLocations n
    = Some (location, usedLocations ++ [Some location], n') ∧
    in_grid location ∧
    (Some location ∉ usedLocations) ∧
    ∀ (fuel' : nat) (r : point * list (option point) * nat),
      chooseUnoccupiedLocation fuel' usedLocations n = Some r →
      r = (location, usedLocations ++ [Some location], n').
Proof.
  intros Hu Hfair Hroom.
  apply chooseUnoccupiedLocation_draws_free; [done|].
  by apply fair_draws_free.
Qed.

(** *** [initGame] *)

Lemma placeTreasures_Some (fuel todo : nat) (locations used : list (option point)) (n : nat)
    (locations' used' : list (option point)) (n' : nat) :
  placeTreasures fuel todo locations used n = Some (locations', used', n') →
  ∃ ps : list point,
    length ps = todo ∧
    locations' = locations ++ (Some <$> ps) ∧
    used' = used ++ (Some <$> ps) ∧
    (∀ p : point, p ∈ ps → ∃ k : nat, p = randomPoint k) ∧
    (NoDup used → NoDup used').
Proof.
  revert locations used n.
  induction todo as [|todo IH]; intros locations used n; simpl.
  - intros [= <- <- <-]. exists []. rewrite !app_nil_r.
    repeat split; [|done]. intros p Hp. by apply elem_of_nil in Hp.
  - destruct (chooseUnoccupiedLocation fuel used n) as [[[location used1] n1]|] eqn:Hc;
      [|done].
    apply chooseUnoccupiedLocation_Some in Hc as ((k & Hk & _) & Hnew & ->).
    intros (ps & Hlen & -> & -> & Hdrawn & Hnodup)%IH.
    exists (location :: ps). rewrite fmap_cons.
    split; [by rewrite <- Hlen|].
    split; [by rewrite <- app_assoc|].
    split; [by rewrite <- app_assoc|].
    split.
    + intros p [->|Hp]%elem_of_cons; [by exists (n + 2 * k)%nat | by apply Hdrawn].
    + intros Hused. apply Hnodup. apply NoDup_app.
      split; [done|]. split; [|apply NoDup_singleton].
      intros o Ho ->%list_elem_of_singleton. done.
Qed.

Lemma placeTreasures_mono (fuel fuel' todo : nat) (locations used : list (option point))
    (n : nat) (r : list (option point) * list (option point) * nat) :
  (fuel ≤ fuel')%nat →
  placeTreasures fuel todo locations used n = Some r →
  placeTreasures fuel' todo locations used n = Some r.
Proof.
  intros Hle. revert locations used n.
  induction todo as [|todo IH]; intros locations used n; simpl; [done|].
  destruct (chooseUnoccupiedLocation fuel used n) as [[[location used1] n1]|] eqn:Hc;
    [|done].
  rewrite (chooseUnoccupiedLocation_mono fuel fuel' _ _ _ Hle Hc). apply IH.
Qed.

Lemma placeTreasures_total (todo : nat) (locations used : list (option point)) (n : nat) :
  fair →
  Z.of_nat (length used + todo) ≤ Z.pos GRID_SIZE * Z.pos GRID_SIZE →
  ∃ (fuel : nat) (r : list (option point) * list (option point) * nat),
    placeTreasures fuel todo locations used n = Some r.
Proof.
  intros Hfair. revert locations used n.
  induction todo as [|todo IH]; intros locations used n Hroom.
  - exists 0%nat. simpl. eauto.
  - destruct (fair_draws_free used n Hfair) as [m Hfresh].
    { apply short_unsaturated. lia. }
    destruct (chooseUnoccupiedLocation_ends used n m Hfresh) as (location & n1 & Hc).
    destruct (IH (locations ++ [Some location]) (used ++ [Some location]) n1)
      as (fuel & r & Hr).
    { rewrite length_app. simpl. lia. }
    exists (S m `max` fuel)%nat, r. cbn [placeTreasures].
    rewrite (chooseUnoccupiedLocation_mono (S m) (S m `max` fuel)%nat _ _ _
               ltac:(lia) Hc).
    apply (placeTreasures_mono fuel); [lia | done].
Qed.

Lemma initGame_Some (fuel : nat) (s : game) (n : nat) (s' : game) (n' : nat) :
  initGame fuel s n = Some (s', n') →
  treasures s' = treasures s ∧
  (unit_interval → placed s') ∧
  playerLocation s' = toPoint 1 1 ∧
  foundTreasureCount s' = 0 ∧
  ∃ ps : list point,
    treasureLocations s' = Some <$> ps ∧
    length ps = length (treasures s) ∧
    NoDup (playerLocation s' :: monsterLocation s' :: ps).
Proof.
  unfold initGame. cbn.
  destruct (chooseUnoccupiedLocation fuel [Some (toPoint 1 1)] n)
    as [[[monster used1] n1]|] eqn:Hc; [|done].
  destruct (placeTreasures fuel (length (treasures s)) [] used1 n1)
    as [[[locations used2] n2]|] eqn:Hp; [|done].
  intros [= <- <-]. cbn.
  apply chooseUnoccupiedLocation_Some in Hc as ((k & Hk & _) & Hnew & ->).
  apply placeTreasures_Some in Hp as (ps & Hlen & -> & -> & Hdrawn & Hnodup).
  assert (Hdistinct : NoDup (toPoint 1 1 :: monster :: ps)).
  { apply (NoDup_fmap_1 Some). apply Hnodup.
    apply NoDup_cons. split; [|apply NoDup_singleton].
    intros [= <-]%list_elem_of_singleton. apply Hnew, list_elem_of_here. }
  split; [done|]. split; [|by repeat split; exists ps].
  intros Hu. split; [done|]. split; [done|]. exists ps.
  split; [done|]. split; [done|]. split; [done|].
  apply Forall_cons. split; [split; cbn; lia|].
  apply Forall_cons. split; [rewrite Hk; by apply randomPoint_in_grid|].
  apply Forall_forall. intros p Hp. destruct (Hdrawn p Hp) as [j ->].
  by apply randomPoint_in_grid.
Qed.

Lemma initGame_total (s : game) (n : nat) :
  fair →
  Z.of_nat (length (treasures s)) + 2 ≤ Z.pos GRID_SIZE * Z.pos GRID_SIZE →
  ∃ (fuel : nat) (s' : game) (n' : nat), initGame fuel s n = Some (s', n').
Proof.
  intros Hfair Hroom.
  destruct (fair_draws_free [Some (toPoint 1 1)] n Hfair) as [m Hfresh].
  { apply short_unsaturated. simpl. lia. }
  destruct (chooseUnoccupiedLocation_ends _ n m Hfresh) as (monster & n1 & Hc).
  destruct (placeTreasures_total (length (treasures s)) []
              ([Some (toPoint 1 1)] ++ [Some monster]) n1 Hfair)
    as (fuel & [[locations used2] n2] & Hp).
  { simpl. lia. }
  exists (S m `max` fuel)%nat. unfold initGame.
  cbn [set_treasureLocations set_foundTreasureCount set_playerLocation
       set_monsterLocation playerLocation treasures treasureLocations].
  rewrite (chooseUnoccupiedLocation_mono (S m) (S m `max` fuel)%nat _ _ _
             ltac:(lia) Hc).
  cbn -[placeTreasures chooseUnoccupiedLocation Nat.max app].
  eexists _, _.
  by rewrite (placeTreasures_mono fuel (S m `max` fuel)%nat _ _ _ _ _ ltac:(lia) Hp).
Qed.

(** C3: when the treasure names and two more fit in the grid and [Math.random]
    returns numbers of the unit interval, every run of [initGame] that ends
    leaves the player in (1,1) and the player, the monster and the treasures
    on pairwise distinct points of the grid; and with a fair sequence of
    random numbers the run does end. *)
Theorem initGame_placement (s : game) :
  unit_interval →
  Z.of_nat (length (treasures s)) + 2 ≤ Z.pos GRID_SIZE * Z.pos GRID_SIZE →
  (∀ (fuel n : nat) (s' : game) (n' : nat),
     initGame fuel s n = Some (s', n') →
     treasures s' = treasures s ∧ placed s') ∧
  (fair → ∀ n : nat, ∃ (fuel : nat) (s' : game) (n' : nat),
     initGame fuel s n = Some (s', n')).
Proof.
  intros Hu Hroom. split.
  - intros fuel n s' n' Hrun.
    destruct (initGame_Some fuel s n s' n' Hrun) as (Hnames & Hplaced & _).
    split; [done | by apply Hplaced].
  - intros Hfair n. by apply initGame_total.
Qed.

(** ** The count of found treasures *)

Lemma absent_le (l : list (option point)) : (absent l ≤ length l)%nat.
Proof. induction l as [|[p|] l IH]; simpl; lia. Qed.

Lemma absent_fmap_Some (ps : list point) : absent (Some <$> ps) = 0%nat.
Proof. induction ps as [|p ps IH]; simpl; done. Qed.

Lemma absent_insert (l : list (option point)) (i : nat) (p : point) :
  l !! i = Some (Some p) → absent (<[i := None]> l) = S (absent l).
Proof.
  revert i. induction l as [|o l IH]; intros [|i]; simpl; try done.
  - by intros [= ->].
  - intros Hi. destruct o; simpl; by rewrite (IH i Hi).
Qed.


Lemma initGame_found_count_ok (fuel : nat) (s : game) (n : nat) (s' : game) (n' : nat) :
  initGame fuel s n = Some (s', n') → paired s' ∧ found_count_ok s'.
Proof.
  intros (Hnames & _ & _ & Hcount & ps & Hlocs & Hlen & _)%initGame_Some.
  unfold paired, found_count_ok.
  rewrite Hnames, Hlocs, Hcount, absent_fmap_Some, length_fmap.
  split; [done|]. split; [done | lia].
Qed.

Lemma collected_found_count_ok (s : game) (location : point) (i : nat) :
  paired s → found_count_ok s →
  treasureLocations s !! i = Some (Some location) →
  paired (collected i (set_playerLocation location s)) ∧
  found_count_ok (collected i (set_playerLocation location s)).
Proof.
  intros Hlen [Hcount Hbound] Hi. unfold paired, found_count_ok in *. cbn.
  rewrite length_insert, (absent_insert _ _ _ Hi).
  split; [done|]. split; [lia|].
  pose proof (absent_le (<[i := None]> (treasureLocations s))) as Hle.
  rewrite length_insert, (absent_insert _ _ _ Hi) in Hle. lia.
Qed.

Lemma enterLocation_found_count_ok (s : game) (location : point) :
  paired s → found_count_ok s →
  paired (after (enterLocation location s)) ∧
  found_count_ok (after (enterLocation location s)).
Proof.
  intros Hlen Hok. rewrite enterLocation_eq. cbn zeta.
  destruct (decide (location = monsterLocation s)); [done|].
  destruct (findPoint (treasureLocations s) (Some location)) as [i|] eqn:Hf; [|done].
  apply findPoint_Some in Hf as [Hi _].
  destruct (foundTreasureCount s + 1 =? Z.of_nat (length (treasures s)));
    by apply collected_found_count_ok.
Qed.

Lemma processCommand_found_count_ok (s : game) (command : string) :
  paired s → found_count_ok s →
  paired (after (processCommand command s)) ∧
  found_count_ok (after (processCommand command s)).
Proof.
  intros Hlen Hok. rewrite processCommand_eq. cbn zeta.
  assert (Hmove : ∀ candidate : option point,
    paired (after (move candidate s)) ∧ found_count_ok (after (move candidate s))).
  { intros [newLocation|]; [|done]. by apply enterLocation_found_count_ok. }
  repeat match goal with
         | |- context [if ?b then _ else _] => destruct b; [done|]
         end.
  done.
Qed.

Lemma reachable_found_count_ok (s : game) :
  reachable s → paired s ∧ found_count_ok s.
Proof.
  induction 1 as [fuel s n s' n' Hinit | s location _ [] | s command _ []].
  - by eapply initGame_found_count_ok.
  - by apply enterLocation_found_count_ok.
  - by apply processCommand_found_count_ok.
Qed.

(** C5: the count of found treasures is the number of entries whose location
    is absent and lies between 0 and the number of treasures: this holds, for
    a sequence of treasures as [initGame] builds it, in the state a run of
    [initGame] ends in; each call of [enterLocation] and of [processCommand]
    keeps it; so it holds in every state the script reaches. *)
Theorem found_count_invariant :
  (∀ (fuel : nat) (s : game) (n : nat) (s' : game) (n' : nat),
     initGame fuel s n = Some (s', n') → paired s' ∧ found_count_ok s') ∧
  (∀ (s : game) (location : point),
     paired s → found_count_ok s →
     paired (after (enterLocation location s)) ∧
     found_count_ok (after (enterLocation location s))) ∧
  (∀ (s : game) (command : string),
     paired s → found_count_ok s →
     paired (after (processCommand command s)) ∧
     found_count_ok (after (processCommand command s))) ∧
  (∀ s : game, reachable s → found_count_ok s).
Proof.
  split; [exact initGame_found_count_ok|].
  split; [exact enterLocation_found_count_ok|].
  split; [exact processCommand_found_count_ok|].
  intros s Hs. by apply reachable_found_count_ok.
Qed.

(** ** Treasures and monster apart *)









(** ** Equality and search of points, once more *)

(** X1: [isEqualPoint] decides equality of two values that are points or
    [undefined]: two [undefined] are equal, [undefined] equals no point, two
    points are equal exactly when both coordinates agree; the test does not
    depend on the order of its arguments. *)
Theorem isEqualPoint_equality :
  (∀ p1 p2 : option point, isEqualPoint p1 p2 = true ↔ p1 = p2) ∧
  (∀ p1 p2 : option point, isEqualPoint p1 p2 = isEqualPoint p2 p1) ∧
  (∀ a b : point,
     isEqualPoint (Some a) (Some b) = true ↔ a.(x) = b.(x) ∧ a.(y) = b.(y)) ∧
  (∀ p : point,
     isEqualPoint None (Some p) = false ∧ isEqualPoint (Some p) None = false).
Proof using Type.
  split; [exact isEqualPoint_spec|]. split; [|split].
  - intros p1 p2. destruct (decide (p1 = p2)) as [->|Hne]; [done|].
    rewrite (isEqualPoint_neq p1 p2 Hne). symmetry.
    apply isEqualPoint_neq. congruence.
  - intros [a1 a2] [b1 b2]. rewrite isEqualPoint_spec. cbn.
    split; [by intros [= -> ->] | by intros [-> ->]].
  - by intros p.
Qed.

(** X2: [findPoint] returns the least index at which the array holds the
    point looked for, and [undefined] exactly when the array does not hold
    it. *)
Theorem findPoint_first (l : list (option point)) (pt : option point) :
  (∀ j : nat,
     findPoint l pt = Some j ↔
     l !! j = Some pt ∧ ∀ k : nat, (k < j)%nat → l !! k ≠ Some pt) ∧
  (findPoint l pt = None ↔ pt ∉ l).
Proof using Type.
  split; [|apply findPoint_absent].
  intros j. split; [apply findPoint_Some|].
  intros [Hj Hmin].
  destruct (findPoint l pt) as [j'|] eqn:Hf.
  - apply findPoint_Some in Hf as [Hj' Hmin'].
    destruct (Nat.lt_trichotomy j j') as [Hlt|[->|Hlt]]; [|done|].
    + by destruct (Hmin' j Hlt).
    + by destruct (Hmin j' Hlt).
  - apply findPoint_absent in Hf. destruct Hf.
    apply list_elem_of_lookup. by exists j.
Qed.

(** ** The first free draw *)

(** X3: a call of [chooseUnoccupiedLocation] that returns has returned the
    first point drawn that was not in [usedLocations]: every point drawn
    before it in the call was in the array; the array gains that point at its
    end and nothing else; and [Math.random] was called twice for each turn. *)
Theorem chooseUnoccupiedLocation_first_free (fuel : nat)
    (usedLocations : list (option point)) (n : nat)
    (location : point) (usedLocations' : list (option point)) (n' : nat) :
  chooseUnoccupiedLocation fuel usedLocations n = Some (location, usedLocations', n') →
  ∃ m : nat,
    (m < fuel)%nat ∧
    location = randomPoint (n + 2 * m) ∧
    (∀ k : nat, (k < m)%nat → Some (randomPoint (n + 2 * k)) ∈ usedLocations) ∧
    (Some location ∉ usedLocations) ∧
    usedLocations' = usedLocations ++ [Some location] ∧
    n' = (n + 2 * S m)%nat.
Proof.
  revert n. induction fuel as [|fuel IH]; intros n;
    cbn [chooseUnoccupiedLocation]; [done|].
  destruct (findPoint usedLocations (Some (randomPoint n))) as [i|] eqn:Hf.
  - intros (m & Hm & -> & Hbefore & Hnew & -> & ->)%IH.
    exists (S m). split; [lia|]. split; [f_equal; lia|].
    split; [|split; [done|split; [done|lia]]].
    intros [|k] Hk.
    + replace (n + 2 * 0)%nat with n by lia.
      apply findPoint_Some in Hf as [Hi _].
      apply list_elem_of_lookup. by exists i.
    + replace (n + 2 * S k)%nat with (S (S n) + 2 * k)%nat by lia.
      apply Hbefore. lia.
  - intros [= <- <- <-]. apply findPoint_None in Hf.
    exists 0%nat. replace (n + 2 * 0)%nat with n by lia.
    split; [lia|]. split; [done|]. split; [intros k Hk; lia|].
    split; [done|]. split; [done|lia].
Qed.

(** ** The first call of [enterLocation] *)

Lemma set_playerLocation_same (s : game) :
  set_playerLocation (playerLocation s) s = s.
Proof. by destruct s. Qed.

(** X4: when [initGame] has returned, the call [enterLocation(toPoint(1,1))]
    that the script makes next never ends the game: it returns [true], leaves
    every variable as [initGame] set it, and prints the location line,
    followed by the growl exactly when the monster is next to (1,1). *)
Theorem start_continues (fuel : nat) (s : game) (n : nat)
    (r : bool * game * list string) (n' : nat) :
  start fuel s n = Some (r, n') →
  ∃ s' : game,
    initGame fuel s n = Some (s', n') ∧
    r = (true, s',
         msg_location (toPoint 1 1) ::
         (if isAdjacent (monsterLocation s') (toPoint 1 1) then [msg_growl] else [])).
Proof.
  unfold start.
  destruct (initGame fuel s n) as [[s' n1]|] eqn:Hinit; [|done].
  intros [= <- <-]. exists s'. split; [done|].
  destruct (initGame_Some _ _ _ _ _ Hinit)
    as (_ & _ & Hplayer & _ & ps & Hlocs & _ & Hnodup).
  rewrite Hplayer in Hnodup.
  apply NoDup_cons in Hnodup as [Hfirst _].
  rewrite enterLocation_eq. cbn zeta.
  rewrite decide_False.
  - assert (Hnone : findPoint (treasureLocations s') (Some (toPoint 1 1)) = None).
    { apply findPoint_None. rewrite Hlocs.
      intros (p & [= <-] & Hp)%list_elem_of_fmap.
      apply Hfirst. by apply elem_of_cons; right. }
    rewrite Hnone, <- Hplayer, set_playerLocation_same. done.
  - intros Hm. apply Hfirst. rewrite Hm. apply list_elem_of_here.
Qed.

(** ** One step at a time *)

(** X5: a command moves the player by at most one square, along one axis; and
    a move that the edge of the grid does not block is [enterLocation] at the
    neighbouring square on that side. *)
Theorem processCommand_step (s : game) (command : string) :
  Z.abs ((playerLocation (after (processCommand command s))).(x) - (playerLocation s).(x))
  + Z.abs ((playerLocation (after (processCommand command s))).(y) - (playerLocation s).(y))
  ≤ 1 ∧
  (normalize command = "l" → 1 < (playerLocation s).(x) →
   processCommand command s
   = enterLocation (toPoint ((playerLocation s).(x) - 1) (playerLocation s).(y)) s) ∧
  (normalize command = "r" → (playerLocation s).(x) < Z.pos GRID_SIZE →
   processCommand command s
   = enterLocation (toPoint ((playerLocation s).(x) + 1) (playerLocation s).(y)) s) ∧
  (normalize command = "u" → 1 < (playerLocation s).(y) →
   processCommand command s
   = enterLocation (toPoint (playerLocation s).(x) ((playerLocation s).(y) - 1)) s) ∧
  (normalize command = "d" → (playerLocation s).(y) < Z.pos GRID_SIZE →
   processCommand command s
   = enterLocation (toPoint (playerLocation s).(x) ((playerLocation s).(y) + 1)) s).
Proof.
  rewrite processCommand_eq. cbn zeta. split.
  - destruct (negb (truthy (normalize command))); [cbn; lia|].
    destruct (normalize command =? "q")%string; [cbn; lia|].
    repeat match goal with
           | |- context [(?a =? ?b)%string] =>
               destruct (a =? b)%string;
               [rewrite move_playerLocation, ?Z.gtb_ltb;
                match goal with
                | |- context [?a <? ?b] => destruct (Z.ltb_spec a b)
                end; cbn; lia|]
           end.
    cbn. lia.
  - split; [|split; [|split]]; intros -> Hroom; cbn.
    + rewrite Z.gtb_ltb. by destruct (Z.ltb_spec 1 (playerLocation s).(x)); [|lia].
    + by destruct (Z.ltb_spec (playerLocation s).(x) (Z.pos GRID_SIZE)); [|lia].
    + rewrite Z.gtb_ltb. by destruct (Z.ltb_spec 1 (playerLocation s).(y)); [|lia].
    + by destruct (Z.ltb_spec (playerLocation s).(y) (Z.pos GRID_SIZE)); [|lia].
Qed.

(** ** Letter case and white space around a command *)

Lemma toLowerCase_unit_idemp (c : ascii) :
  toLowerCase_unit (toLowerCase_unit c) = toLowerCase_unit c.
Proof. by destruct c as [[] [] [] [] [] [] [] []]. Qed.

Lemma isWhiteSpace_toLowerCase_unit (c : ascii) :
  isWhiteSpace (toLowerCase_unit c) = isWhiteSpace c.
Proof. by destruct c as [[] [] [] [] [] [] [] []]. Qed.

Lemma toLowerCase_idemp (s : string) : toLowerCase (toLowerCase s) = toLowerCase s.
Proof.
  induction s as [|c s IH]; simpl; [done|].
  by rewrite toLowerCase_unit_idemp, IH.
Qed.

Lemma toLowerCase_trimStart (s : string) :
  toLowerCase (trimStart s) = trimStart (toLowerCase s).
Proof.
  induction s as [|c s IH]; simpl; [done|].
  rewrite isWhiteSpace_toLowerCase_unit. by destruct (isWhiteSpace c).
Qed.

Lemma toLowerCase_trimEnd (s : string) :
  toLowerCase (trimEnd s) = trimEnd (toLowerCase s).
Proof.
  induction s as [|c s IH]; simpl; [done|].
  rewrite <- IH, isWhiteSpace_toLowerCase_unit.
  destruct (trimEnd s); simpl; [|done]. by destruct (isWhiteSpace c).
Qed.

Lemma toLowerCase_trim (s : string) : toLowerCase (trim s) = trim (toLowerCase s).
Proof. unfold trim. by rewrite toLowerCase_trimEnd, toLowerCase_trimStart. Qed.

Lemma trimEnd_idemp (s : string) : trimEnd (trimEnd s) = trimEnd s.
Proof.
  induction s as [|c s IH]; simpl; [done|].
  destruct (trimEnd s) as [|c' t] eqn:Ht.
  - destruct (isWhiteSpace c) eqn:Hc; simpl; [done|]. by rewrite Hc.
  - change (trimEnd (String c (String c' t)))
      with (match trimEnd (String c' t) with
            | EmptyString =>
                if isWhiteSpace c then EmptyString else String c EmptyString
            | t0 => String c t0
            end).
    by rewrite IH.
Qed.

(** A string that does not begin with white space still does not after
    [trimEnd]. *)
Lemma trimStart_trimEnd (s : string) :
  trimStart s = s → trimStart (trimEnd s) = trimEnd s.
Proof.
  destruct s as [|c s]; [done|]. simpl.
  destruct (isWhiteSpace c) eqn:Hc.
  - intros Hs. exfalso.
    assert (Hlen : (String.length (trimStart s) ≤ String.length s)%nat).
    { clear. induction s as [|c s IH]; simpl; [done|].
      destruct (isWhiteSpace c); simpl; lia. }
    rewrite Hs in Hlen. simpl in Hlen. lia.
  - intros _. destruct (trimEnd s); simpl; by rewrite Hc.
Qed.

Lemma trimStart_idemp (s : string) : trimStart (trimStart s) = trimStart s.
Proof.
  induction s as [|c s IH]; simpl; [done|].
  destruct (isWhiteSpace c) eqn:Hc; [done|]. simpl. by rewrite Hc.
Qed.

Lemma trim_idemp (s : string) : trim (trim s) = trim s.
Proof.
  unfold trim. rewrite (trimStart_trimEnd (trimStart s)) by apply trimStart_idemp.
  apply trimEnd_idemp.
Qed.

Lemma normalize_idemp (command : string) :
  normalize (normalize command) = normalize command.
Proof.
  unfold normalize at 2 3. destruct (truthy command) eqn:Ht.
  - unfold normalize. destruct (truthy (trim (toLowerCase command))) eqn:Ht'.
    + by rewrite toLowerCase_trim, toLowerCase_idemp, trim_idemp.
    + done.
  - by destruct command.
Qed.

Lemma truthy_toLowerCase (s : string) : truthy (toLowerCase s) = truthy s.
Proof. by destruct s. Qed.

Lemma normalize_toLowerCase (command : string) :
  normalize (toLowerCase command) = normalize command.
Proof.
  unfold normalize. rewrite truthy_toLowerCase, toLowerCase_idemp.
  by destruct command.
Qed.

Lemma normalize_trim (command : string) :
  normalize (trim command) = normalize command.
Proof.
  destruct command as [|c command]; [done|].
  unfold normalize. cbn [truthy].
  destruct (truthy (trim (String c command))) eqn:Ht.
  - by rewrite toLowerCase_trim, trim_idemp.
  - destruct (trim (String c command)) eqn:Hempty; [|done].
    by rewrite <- toLowerCase_trim, Hempty.
Qed.

(** X6: [processCommand] does not tell a command from the same command in
    other letter case or with white space around it: lowering the case of the
    command, trimming it, or doing both beforehand changes nothing. *)
Theorem processCommand_insensitive (s : game) (command : string) :
  processCommand (toLowerCase command) s = processCommand command s ∧
  processCommand (trim command) s = processCommand command s ∧
  processCommand (normalize command) s = processCommand command s.
Proof.
  unfold processCommand. cbn zeta.
  by rewrite normalize_toLowerCase, normalize_trim, normalize_idemp.
Qed.

(** ** The lines that are printed *)

(** Two lines that differ within their fixed beginnings. *)
Ltac lines_differ :=
  let H := fresh in
  intros H;
  unfold msg_location, msg_death, msg_found, msg_win, msg_remaining, msg_growl,
    msg_what, msg_unknown, msg_blocked, newline in H;
  cbn in H; discriminate H.

Lemma elem_of_growl (line : string) (monster player : point) :
  line ∈ growl monster player ↔ line = msg_growl ∧ isAdjacent monster player = true.
Proof.
  unfold growl. destruct (isAdjacent monster player).
  - rewrite list_elem_of_singleton. by split; [|intros []].
  - rewrite elem_of_nil. by split; [|intros []].
Qed.

(** X7: [enterLocation] prints the growl exactly when it returns [true] and
    the monster is next to the new location; it never prints it on the move
    that ends the game. *)
Theorem enterLocation_growl (s : game) (location : point) :
  msg_growl ∈ printed (enterLocation location s) ↔
  result (enterLocation location s) = true ∧
  isAdjacent (monsterLocation s) location = true.
Proof using Type.
  rewrite enterLocation_eq. cbn zeta.
  destruct (decide (location = monsterLocation s)) as [Hm|Hm].
  - cbn. rewrite !elem_of_cons, elem_of_nil. split; [|by intros [? _]].
    intros [H|[H|[]]]; revert H; lines_differ.
  - destruct (findPoint (treasureLocations s) (Some location)) as [i|].
    + destruct (foundTreasureCount s + 1 =? Z.of_nat (length (treasures s))); cbn.
      * rewrite !elem_of_cons, elem_of_nil. split; [|by intros [? _]].
        intros [H|[H|[H|[]]]]; revert H; lines_differ.
      * rewrite !elem_of_cons, elem_of_growl.
        split; [|by intros [_ H]; do 3 right].
        intros [H|[H|[H|[_ H]]]]; [revert H; lines_differ.. | done].
    + cbn. rewrite elem_of_cons, elem_of_growl.
      split; [|by intros [_ H]; right].
      intros [H|[_ H]]; [revert H; lines_differ | done].
Qed.

(** Near points are adjacent. *)
Lemma isAdjacent_near (p1 p2 : point) :
  Z.abs (p2.(x) - p1.(x)) + Z.abs (p2.(y) - p1.(y)) ≤ 1 → isAdjacent p1 p2 = true.
Proof.
  intros Hnear. unfold isAdjacent. rewrite !Z.gtb_ltb.
  destruct (p2.(y) <? p1.(y) - 1) eqn:E1, (p1.(y) + 1 <? p2.(y)) eqn:E2,
           (p2.(x) <? p1.(x) - 1) eqn:E3, (p1.(x) + 1 <? p2.(x)) eqn:E4;
    rewrite ?Z.ltb_lt, ?Z.ltb_ge in *; cbn; try done; lia.
Qed.

(** What a command does: nothing but print one line, or nothing at all
    (quit), or enter a neighbouring square. *)
Lemma processCommand_cases (s : game) (command : string) :
  processCommand command s = (true, s, [msg_what]) ∨
  (normalize command = "q" ∧ processCommand command s = (false, s, [])) ∨
  processCommand command s = (true, s, [msg_unknown]) ∨
  processCommand command s = (true, s, [msg_blocked]) ∨
  ∃ location : point,
    processCommand command s = enterLocation location s ∧
    Z.abs (location.(x) - (playerLocation s).(x))
    + Z.abs (location.(y) - (playerLocation s).(y)) = 1 ∧
    (in_grid (playerLocation s) → in_grid location).
Proof.
  rewrite processCommand_eq. cbn zeta.
  destruct (negb (truthy (normalize command))); [by left|].
  destruct (String.eqb_spec (normalize command) "q"); [by right; left|].
  repeat match goal with
         | |- context [(?a =? ?b)%string] =>
             destruct (a =? b)%string;
             [rewrite ?Z.gtb_ltb;
              match goal with
              | |- context [?a <? ?b] => destruct (Z.ltb_spec a b)
              end; cbn [move];
              [do 4 right; eexists; split; [reflexivity|];
               split; [cbn; lia | intros [? ?]; split; cbn; lia]
              | by do 3 right; left]|]
         end.
  by do 2 right; left.
Qed.

Lemma enterLocation_no_death (s : game) (location : point) :
  location ≠ monsterLocation s → msg_death ∉ printed (enterLocation location s).
Proof.
  intros Hm. rewrite enterLocation_eq. cbn zeta. rewrite decide_False by done.
  destruct (findPoint (treasureLocations s) (Some location)) as [i|].
  - destruct (foundTreasureCount s + 1 =? Z.of_nat (length (treasures s))); cbn.
    + rewrite !elem_of_cons, elem_of_nil.
      intros [H|[H|[H|[]]]]; revert H; lines_differ.
    + rewrite !elem_of_cons, elem_of_growl.
      intros [H|[H|[H|[H _]]]]; revert H; lines_differ.
  - cbn. rewrite elem_of_cons, elem_of_growl.
    intros [H|[H _]]; revert H; lines_differ.
Qed.

(** X8: when the monster is not next to the player (no growl was due where
    the player stands), no command whatever takes the player onto the monster
    or prints the death line. *)
Theorem processCommand_safe (s : game) (command : string) :
  isAdjacent (monsterLocation s) (playerLocation s) = false →
  playerLocation (after (processCommand command s)) ≠ monsterLocation s ∧
  msg_death ∉ printed (processCommand command s).
Proof.
  intros Hfar.
  assert (Hhere : playerLocation s ≠ monsterLocation s).
  { intros Heq. rewrite isAdjacent_near in Hfar; [done|]. rewrite Heq. lia. }
  destruct (processCommand_cases s command)
    as [-> | [[_ ->] | [-> | [-> | (location & -> & Hstep & _)]]]]; cbn.
  - split; [done|]. rewrite list_elem_of_singleton. lines_differ.
  - split; [done|]. apply not_elem_of_nil.
  - split; [done|]. rewrite list_elem_of_singleton. lines_differ.
  - split; [done|]. rewrite list_elem_of_singleton. lines_differ.
  - assert (Hm : location ≠ monsterLocation s).
    { intros Heq. rewrite isAdjacent_near in Hfar; [done|]. rewrite <- Heq. lia. }
    rewrite playerLocation_enterLocation.
    split; [done | by apply enterLocation_no_death].
Qed.

(** ** Treasures still to find *)

Lemma absent_present (l : list (option point)) :
  (absent l + present l = length l)%nat.
Proof. induction l as [|[p|] l IH]; simpl; lia. Qed.

Lemma present_0 (l : list (option point)) :
  present l = 0%nat ↔ Forall (λ o, o = None) l.
Proof.
  induction l as [|[p|] l IH]; simpl.
  - by split; [constructor|].
  - split; [done|]. by intros [? _]%Forall_cons.
  - rewrite IH. split; [by constructor | by intros [_ ?]%Forall_cons].
Qed.

Lemma present_collected (s : game) (location : point) (i : nat) :
  paired s → found_count_ok s →
  treasureLocations s !! i = Some (Some location) →
  Z.of_nat (present (treasureLocations (collected i (set_playerLocation location s))))
  = Z.of_nat (length (treasures s)) - (foundTreasureCount s + 1).
Proof.
  intros Hlen [Hcount _] Hi. cbn.
  pose proof (absent_present (<[i := None]> (treasureLocations s))) as Hsum.
  rewrite length_insert, (absent_insert _ _ _ Hi) in Hsum.
  unfold paired in Hlen. lia.
Qed.

(** X9: in a state whose two arrays pair up and whose count is right, a move
    that collects a treasure without ending the game prints, after the
    location line and the line naming the treasure found, the number of
    treasures that are still present, and that number is at least one. *)
Theorem enterLocation_remaining (s : game) (location : point) :
  paired s → found_count_ok s →
  location ≠ monsterLocation s →
  Some location ∈ treasureLocations s →
  result (enterLocation location s) = true →
  (1 ≤ present (treasureLocations (after (enterLocation location s))))%nat ∧
  ∃ i : nat,
    findPoint (treasureLocations s) (Some location) = Some i ∧
    printed (enterLocation location s)
    = [msg_location location;
       msg_found (name_at (treasures s) i);
       msg_remaining
         (Z.of_nat (present (treasureLocations (after (enterLocation location s)))))]
      ++ (if isAdjacent (monsterLocation s) location then [msg_growl] else []).
Proof using Type.
  intros Hlen Hok Hm Hin. rewrite enterLocation_eq. cbn zeta.
  rewrite decide_False by done.
  destruct (findPoint (treasureLocations s) (Some location)) as [i|] eqn:Hf;
    [|by apply findPoint_absent in Hf].
  pose proof Hf as [Hi _]%findPoint_Some.
  pose proof (present_collected s location i Hlen Hok Hi) as Hleft.
  destruct (collected_found_count_ok s location i Hlen Hok Hi) as [_ [_ Hbound]].
  destruct (foundTreasureCount s + 1 =? Z.of_nat (length (treasures s))) eqn:Hc;
    [done|].
  apply Z.eqb_neq in Hc. intros _. cbn in Hbound.
  cbn [after fst snd printed]. split; [lia|].
  exists i. split; [done|]. by rewrite Hleft.
Qed.

(** X14: in a state whose two arrays pair up, a move onto a treasure away
    from the monster prints, as its second line, that the treasure was found,
    with the name that stands in the array of names at the index of the entry
    found: the name is never missing. *)
Theorem enterLocation_names (s : game) (location : point) :
  paired s →
  location ≠ monsterLocation s →
  Some location ∈ treasureLocations s →
  ∃ (i : nat) (name : string),
    findPoint (treasureLocations s) (Some location) = Some i ∧
    treasures s !! i = Some name ∧
    printed (enterLocation location s) !! 1%nat = Some (msg_found name).
Proof using Type.
  intros Hlen Hm Hin. rewrite enterLocation_eq. cbn zeta.
  rewrite decide_False by done.
  destruct (findPoint (treasureLocations s) (Some location)) as [i|] eqn:Hf;
    [|by apply findPoint_absent in Hf].
  pose proof Hf as [Hi _]%findPoint_Some.
  destruct (lookup_lt_is_Some_2 (treasures s) i) as [name Hname].
  { rewrite <- Hlen. by eapply lookup_lt_Some. }
  exists i, name. split; [done|]. split; [done|].
  unfold name_at. rewrite Hname.
  by destruct (foundTreasureCount s + 1 =? Z.of_nat (length (treasures s))).
Qed.

(** X10: in such a state, a move to a location other than the monster's ends
    the game exactly when it lands on a treasure and no treasure is present
    afterwards. *)
Theorem enterLocation_win (s : game) (location : point) :
  paired s → found_count_ok s →
  location ≠ monsterLocation s →
  (result (enterLocation location s) = false ↔
   Some location ∈ treasureLocations s ∧
   Forall (λ o, o = None) (treasureLocations (after (enterLocation location s)))).
Proof using Type.
  intros Hlen Hok Hm. rewrite <- present_0.
  rewrite enterLocation_eq. cbn zeta. rewrite decide_False by done.
  destruct (findPoint (treasureLocations s) (Some location)) as [i|] eqn:Hf.
  - apply findPoint_Some in Hf as [Hi _].
    assert (Hin : Some location ∈ treasureLocations s)
      by (apply list_elem_of_lookup; by exists i).
    pose proof (present_collected s location i Hlen Hok Hi) as Hleft.
    destruct (foundTreasureCount s + 1 =? Z.of_nat (length (treasures s))) eqn:Hc;
      cbn [result after fst snd].
    + apply Z.eqb_eq in Hc. split; [intros _|done]. split; [done|lia].
    + apply Z.eqb_neq in Hc. split; [done|]. intros [_ Hnone]. lia.
  - apply findPoint_absent in Hf. cbn. split; [done|]. by intros [? _].
Qed.

(** ** The ways a command ends the game *)

Ltac last_differs :=
  let H := fresh in
  intros [= H]; revert H; lines_differ.

Lemma enterLocation_last (s : game) (location : point) :
  (result (enterLocation location s) = false →
   last (printed (enterLocation location s)) = Some msg_death ∨
   ∃ k : Z, last (printed (enterLocation location s)) = Some (msg_win k)) ∧
  (result (enterLocation location s) = true →
   last (printed (enterLocation location s)) ≠ Some msg_death ∧
   ∀ k : Z, last (printed (enterLocation location s)) ≠ Some (msg_win k)).
Proof using Type.
  rewrite enterLocation_eq. cbn zeta.
  destruct (decide (location = monsterLocation s)) as [Hm|Hm]; cbn.
  - split; [by left | done].
  - destruct (findPoint (treasureLocations s) (Some location)) as [i|].
    + destruct (foundTreasureCount s + 1 =? Z.of_nat (length (treasures s))); cbn.
      * split; [right; by eexists | done].
      * split; [done|]. intros _. unfold growl.
        destruct (isAdjacent (monsterLocation s) location); cbn;
          (split; [|intros k]); last_differs.
    + cbn. split; [done|]. intros _. unfold growl.
      destruct (isAdjacent (monsterLocation s) location); cbn;
        (split; [|intros k]); last_differs.
Qed.

(** X12: [processCommand] returns [false] in three cases and no other: the
    command is quit, and then nothing is printed and no variable changes; or
    the last line printed is the death line; or it is the win line. *)
Theorem processCommand_ends (s : game) (command : string) :
  (result (processCommand command s) = false ↔
   normalize command = "q" ∨
   last (printed (processCommand command s)) = Some msg_death ∨
   ∃ k : Z, last (printed (processCommand command s)) = Some (msg_win k)) ∧
  (normalize command = "q" → processCommand command s = (false, s, [])).
Proof.
  assert (Hquit : normalize command = "q" → processCommand command s = (false, s, [])).
  { intros Hq. rewrite processCommand_eq. cbn zeta. by rewrite Hq. }
  split; [|done]. split.
  - destruct (processCommand_cases s command)
      as [-> | [[Hq _] | [-> | [-> | (location & -> & _)]]]]; try done.
    + by left.
    + intros Hend. right. by apply enterLocation_last.
  - intros [Hq | Hlast]; [by rewrite (Hquit Hq)|].
    destruct (processCommand_cases s command)
      as [Hrun | [[_ ->] | [Hrun | [Hrun | (location & Hrun & _)]]]];
      [| done | | |]; rewrite Hrun in Hlast |- *; cbn in Hlast |- *.
    + exfalso. destruct Hlast as [Hd | [k Hk]]; [revert Hd | revert Hk]; last_differs.
    + exfalso. destruct Hlast as [Hd | [k Hk]]; [revert Hd | revert Hk]; last_differs.
    + exfalso. destruct Hlast as [Hd | [k Hk]]; [revert Hd | revert Hk]; last_differs.
    + destruct (result (enterLocation location s)) eqn:Hres; [|done]. exfalso.
      destruct (proj2 (enterLocation_last s location) Hres) as [Hnd Hnw].
      destruct Hlast as [Hd | [k Hk]]; [by apply Hnd | by apply (Hnw k)].
Qed.

(** ** A whole session *)

Lemma after_bind {A B : Type} (m : Eff A) (f : A → Eff B) (s : game) :
  after ((m ≫= f) s) = after (f (result (m s)) (after (m s))).
Proof using Type.
  unfold mbind, Eff_bind, after, result.
  destruct (m s) as [[a s1] o1]. cbn. by destruct (f a s1) as [[b s2] o2].
Qed.

Lemma after_onLine (command : string) (s : game) :
  after (onLine command s) = after (processCommand command s).
Proof.
  unfold onLine. rewrite after_bind.
  by destruct (result (processCommand command s)).
Qed.

(** What [enterLocation] keeps. *)
Lemma enterLocation_keeps (s : game) (location : point) :
  monsterLocation (after (enterLocation location s)) = monsterLocation s ∧
  treasures (after (enterLocation location s)) = treasures s ∧
  length (treasureLocations (after (enterLocation location s)))
  = length (treasureLocations s) ∧
  foundTreasureCount s ≤ foundTreasureCount (after (enterLocation location s)) ∧
  ∀ i : nat,
    treasureLocations s !! i = Some None →
    treasureLocations (after (enterLocation location s)) !! i = Some None.
Proof using Type.
  rewrite enterLocation_eq. cbn zeta.
  destruct (decide (location = monsterLocation s)); [by cbn|].
  destruct (findPoint (treasureLocations s) (Some location)) as [i|] eqn:Hf;
    [|by cbn].
  apply findPoint_Some in Hf as [Hi _].
  assert (Hkeep :
    monsterLocation (collected i (set_playerLocation location s)) = monsterLocation s ∧
    treasures (collected i (set_playerLocation location s)) = treasures s ∧
    length (treasureLocations (collected i (set_playerLocation location s)))
    = length (treasureLocations s) ∧
    foundTreasureCount s
    ≤ foundTreasureCount (collected i (set_playerLocation location s)) ∧
    ∀ j : nat,
      treasureLocations s !! j = Some None →
      treasureLocations (collected i (set_playerLocation location s)) !! j = Some None).
  { cbn. split; [done|]. split; [done|]. split; [apply length_insert|].
    split; [lia|]. intros j Hj.
    destruct (decide (i = j)) as [->|Hne]; [congruence|].
    by rewrite list_lookup_insert_ne. }
  by destruct (foundTreasureCount s + 1 =? Z.of_nat (length (treasures s))).
Qed.

Lemma processCommand_keeps (s : game) (command : string) :
  monsterLocation (after (processCommand command s)) = monsterLocation s ∧
  treasures (after (processCommand command s)) = treasures s ∧
  length (treasureLocations (after (processCommand command s)))
  = length (treasureLocations s) ∧
  foundTreasureCount s ≤ foundTreasureCount (after (processCommand command s)) ∧
  (∀ i : nat,
     treasureLocations s !! i = Some None →
     treasureLocations (after (processCommand command s)) !! i = Some None) ∧
  (in_grid (playerLocation s) →
   in_grid (playerLocation (after (processCommand command s)))).
Proof.
  destruct (processCommand_cases s command)
    as [-> | [[_ ->] | [-> | [-> | (location & -> & _ & Hgrid)]]]];
    try (cbn; split; [done|]; split; [done|]; split; [done|];
         split; [lia|]; split; done).
  destruct (enterLocation_keeps s location) as (? & ? & ? & ? & ?).
  rewrite playerLocation_enterLocation. done.
Qed.

(** X11: whatever lines are delivered to the listener, and however many of
    them come after the game has ended, the monster never moves, the treasure
    names and the number of treasure entries stay the same, the count of found
    treasures never goes down, a treasure that was found stays found, and a
    player inside the grid stays inside. *)
Theorem session_keeps (lines : list string) (s : game) :
  monsterLocation (after (session lines s)) = monsterLocation s ∧
  treasures (after (session lines s)) = treasures s ∧
  length (treasureLocations (after (session lines s)))
  = length (treasureLocations s) ∧
  foundTreasureCount s ≤ foundTreasureCount (after (session lines s)) ∧
  (∀ i : nat,
     treasureLocations s !! i = Some None →
     treasureLocations (after (session lines s)) !! i = Some None) ∧
  (in_grid (playerLocation s) →
   in_grid (playerLocation (after (session lines s)))).
Proof.
  revert s. induction lines as [|command lines IH]; intros s.
  - cbn. split; [done|]. split; [done|]. split; [done|].
    split; [lia|]. split; done.
  - cbn [session]. rewrite after_bind, after_onLine.
    destruct (processCommand_keeps s command) as (Hm & Hn & Hl & Hc & Hf & Hg).
    destruct (IH (after (processCommand command s)))
      as (Hm' & Hn' & Hl' & Hc' & Hf' & Hg').
    split; [congruence|]. split; [congruence|]. split; [congruence|].
    split; [lia|]. split; [|by intros ?; apply Hg', Hg].
    intros i Hi. by apply Hf', Hf.
Qed.

(** ** The text of a point *)

Lemma numeral_pretty_N_go (n : N) (s : string) :
  numeral s = true → numeral (pretty_N_go n s) = true.
Proof using Type.
  revert s. induction (N.lt_wf_0 n) as [n _ IH]; intros s Hs.
  destruct (decide (0 < n)%N) as [Hpos|Hzero].
  - rewrite pretty_N_go_step by done. apply IH.
    + apply N.div_lt; [done | by vm_compute].
    + cbn [numeral]. rewrite Hs, andb_true_r.
      unfold pretty_N_char. by repeat case_match.
  - assert (n = 0%N) as -> by lia. by rewrite pretty_N_go_0.
Qed.

Lemma numeral_pretty_N (n : N) : numeral (pretty n) = true.
Proof using Type.
  unfold pretty, pretty_N. case_decide; [done|].
  by apply numeral_pretty_N_go.
Qed.

Lemma numeral_pretty_Z (z : Z) : numeral (pretty z) = true.
Proof using Type.
  destruct z as [|p|p].
  - done.
  - apply (numeral_pretty_N (N.pos p)).
  - change (pretty (Z.neg p)) with (String "-" (pretty (N.pos p))).
    cbn [numeral]. by rewrite numeral_pretty_N.
Qed.

(** Two numerals followed by the same character that is no numeral
    character. *)
Lemma numeral_split (sep : ascii) (a b r1 r2 : string) :
  numeral_char sep = false →
  numeral a = true → numeral b = true →
  a +:+ String sep r1 = b +:+ String sep r2 →
  a = b ∧ r1 = r2.
Proof using Type.
  intros Hsep. revert b.
  induction a as [|c a IH]; intros [|d b]; cbn; intros Ha Hb Heq.
  - by injection Heq.
  - injection Heq as <- _. destruct (numeral_char sep); [done|]. by cbn in Hb.
  - injection Heq as -> _. destruct (numeral_char sep); [done|]. by cbn in Ha.
  - injection Heq as -> Heq.
    apply andb_true_iff in Ha as [_ Ha]. apply andb_true_iff in Hb as [_ Hb].
    destruct (IH b Ha Hb Heq) as [-> ->]. done.
Qed.

(** X13: [toString] tells points apart: two points with the same text are the
    same point. *)
Theorem toString_inj (p q : point) : toString p = toString q → p = q.
Proof using Type.
  destruct p as [a b], q as [c d]. unfold toString. cbn.
  intros [= Heq].
  apply (numeral_split ",") in Heq as [Hx Heq];
    [| done | apply numeral_pretty_Z | apply numeral_pretty_Z].
  injection Heq as Heq.
  apply (numeral_split ")") in Heq as [Hy _];
    [| done | apply numeral_pretty_Z | apply numeral_pretty_Z].
  apply (inj pretty) in Hx. apply (inj pretty) in Hy. by subst.
Qed.

End Grid.

(** * Runs on given states and random numbers *)

(** In [lair] a treasure lies where the monster is; the player enters. *)
Lemma enterLocation_death_lair :
  Some (toPoint 2 2) ∈ treasureLocations lair ∧
  result (enterLocation (toPoint 2 2) lair) = false ∧
  printed (enterLocation (toPoint 2 2) lair) = [msg_location (toPoint 2 2); msg_death] ∧
  treasureLocations (after (enterLocation (toPoint 2 2) lair)) = treasureLocations lair ∧
  foundTreasureCount (after (enterLocation (toPoint 2 2) lair)) = foundTreasureCount lair.
Proof.
  split; [apply list_elem_of_here|].
  apply (enterLocation_death lair (toPoint 2 2)). reflexivity.
Defined.

Lemma processCommand_rejection_edge :
  rejection 5 lair "  " msg_what ∧
  rejection 5 lair "xyzzy" msg_unknown ∧
  rejection 5 lair " U " msg_blocked ∧
  processCommand 5 "  " lair = (true, lair, [msg_what]) ∧
  processCommand 5 "xyzzy" lair = (true, lair, [msg_unknown]) ∧
  processCommand 5 " U " lair = (true, lair, [msg_blocked]).
Proof.
  assert (H1 : rejection 5 lair "  " msg_what) by (by apply reject_blank).
  assert (H2 : rejection 5 lair "xyzzy" msg_unknown).
  { apply reject_unknown; [done|].
    replace (normalize "xyzzy") with "xyzzy" by reflexivity.
    rewrite !elem_of_cons, elem_of_nil. intros [?|[?|[?|[?|[?|[]]]]]]; discriminate. }
  assert (H3 : rejection 5 lair " U " msg_blocked) by (by apply reject_up).
  split; [exact H1|]. split; [exact H2|]. split; [exact H3|].
  split; [exact (processCommand_rejection 5 lair _ _ H1)|].
  split; [exact (processCommand_rejection 5 lair _ _ H2)|].
  exact (processCommand_rejection 5 lair _ _ H3).
Defined.

Lemma processCommand_in_grid_lair :
  in_grid 5 (playerLocation lair) ∧
  in_grid 5 (playerLocation (after (processCommand 5 "r" lair))).
Proof.
  assert (H : in_grid 5 (playerLocation lair)) by (cbv; repeat split; discriminate).
  split; [exact H|].
  exact (proj1 (processCommand_in_grid 5 lair "r" H)).
Defined.

Lemma samples_unit_interval : unit_interval samples.
Proof.
  intros n. unfold samples, Qle, Qlt. cbn [Qnum Qden].
  pose proof (Z.mod_pos_bound (Z.of_nat n * 7 + 3) 11). lia.
Qed.

Lemma initGame_opening : initGame 5 samples 10 declared 0 = Some (opening, 16%nat).
Proof. vm_compute. reflexivity. Qed.

Lemma reachable_opening : reachable 5 samples opening.
Proof. exact (reachable_initGame 5 samples _ _ _ _ _ initGame_opening). Qed.

Lemma found_count_invariant_coin :
  reachable 5 samples
    (after (processCommand 5 "r" (after (enterLocation (toPoint 1 1) opening)))) ∧
  found_count_ok
    (after (processCommand 5 "r" (after (enterLocation (toPoint 1 1) opening)))) ∧
  foundTreasureCount
    (after (processCommand 5 "r" (after (enterLocation (toPoint 1 1) opening)))) = 1.
Proof.
  assert (H : reachable 5 samples
               (after (processCommand 5 "r"
                         (after (enterLocation (toPoint 1 1) opening))))).
  { apply reachable_processCommand, reachable_enterLocation, reachable_opening. }
  split; [exact H|]. split; [|reflexivity].
  exact (proj2 (proj2 (proj2 (found_count_invariant 5 samples))) _ H).
Defined.



(** Random numbers that never leave (1,1) are not fair: the loop of
    [chooseUnoccupiedLocation] never ends on them, although the array holds
    only one of the twenty-five points of the grid. *)
Lemma chooseUnoccupiedLocation_stuck :
  unit_interval (λ _, 0%Q) ∧
  ¬ (∀ p : point, in_grid 5 p → Some p ∈ [Some (toPoint 1 1)]) ∧
  ∀ fuel n : nat,
    chooseUnoccupiedLocation 5 (λ _, 0%Q) fuel [Some (toPoint 1 1)] n = None.
Proof.
  split; [by intros n|]. split.
  - intros Hall.
    assert (H : Some (toPoint 2 2) ∈ [Some (toPoint 1 1)]).
    { apply Hall. split; cbn; lia. }
    apply list_elem_of_singleton in H. discriminate H.
  - induction fuel as [|fuel IH]; intros n; [done|].
    cbn [chooseUnoccupiedLocation].
    change (randomPoint 5 (λ _, 0%Q) n) with (toPoint 1 1).
    cbn. apply IH.
Qed.

Lemma dice_unit_interval : unit_interval dice.
Proof.
  intros n. unfold dice.
  destruct (n mod 8)%nat as [|[|[|[|[|[|[|k]]]]]]]; by split.
Qed.

Lemma dice_period (c q : nat) : dice (c + 8 * q) = dice c.
Proof. unfold dice. by rewrite (Nat.mul_comm 8 q), Nat.Div0.mod_add. Qed.

Lemma randomPoint_dice_period (c q : nat) :
  randomPoint 2 dice (c + 8 * q) = randomPoint 2 dice c.
Proof.
  unfold randomPoint, randomCoordinate.
  change (S (c + 8 * q)) with (S c + 8 * q)%nat.
  by rewrite !dice_period.
Qed.

Lemma dice_fair : fair 2 dice.
Proof.
  intros n [a b] [Ha Hb]. cbn in Ha, Hb.
  assert (Hn : n = (n mod 8 + 8 * (n / 8))%nat)
    by (pose proof (Nat.div_mod_eq n 8); lia).
  pose proof (Nat.mod_upper_bound n 8 ltac:(lia)) as Hr.
  rewrite Hn. generalize dependent (n mod 8)%nat. intros r _ Hr.
  assert (Hturn : ∀ m : nat,
    randomPoint 2 dice (r + 8 * (n / 8) + 2 * m)
    = randomPoint 2 dice (r + 2 * m)).
  { intros m. rewrite <- (randomPoint_dice_period (r + 2 * m) (n / 8)).
    f_equal. lia. }
  assert (Ha' : a = 1 ∨ a = 2) by lia. assert (Hb' : b = 1 ∨ b = 2) by lia.
  destruct r as [|[|[|[|[|[|[|[|r]]]]]]]]; [| | | | | | | |lia];
    destruct Ha' as [-> | ->], Hb' as [-> | ->];
    first [ by exists 0%nat; rewrite Hturn
          | by exists 1%nat; rewrite Hturn
          | by exists 2%nat; rewrite Hturn
          | by exists 3%nat; rewrite Hturn ].
Qed.

(** On the grid of side 2 with (1,1) taken, [dice] first draws (1,1), then
    (2,2). *)
Lemma chooseUnoccupiedLocation_returns_dice :
  unit_interval dice ∧ fair 2 dice ∧
  ¬ (∀ p : point, in_grid 2 p → Some p ∈ [Some (toPoint 1 1)]) ∧
  chooseUnoccupiedLocation 2 dice 2 [Some (toPoint 1 1)] 0
  = Some (toPoint 2 2, [Some (toPoint 1 1); Some (toPoint 2 2)], 4%nat) ∧
  ∃ (fuel : nat) (location : point) (n' : nat),
    chooseUnoccupiedLocation 2 dice fuel [Some (toPoint 1 1)] 0
    = Some (location, [Some (toPoint 1 1)] ++ [Some location], n') ∧
    in_grid 2 location ∧
    (Some location ∉ [Some (toPoint 1 1)]) ∧
    ∀ (fuel' : nat) (r : point * list (option point) * nat),
      chooseUnoccupiedLocation 2 dice fuel' [Some (toPoint 1 1)] 0 = Some r →
      r = (location, [Some (toPoint 1 1)] ++ [Some location], n').
Proof.
  assert (Hroom : ¬ (∀ p : point, in_grid 2 p → Some p ∈ [Some (toPoint 1 1)])).
  { intros Hall.
    assert (H : Some (toPoint 2 2) ∈ [Some (toPoint 1 1)]).
    { apply Hall. split; cbn; lia. }
    apply list_elem_of_singleton in H. discriminate H. }
  split; [exact dice_unit_interval|]. split; [exact dice_fair|].
  split; [exact Hroom|]. split; [vm_compute; reflexivity|].
  exact (chooseUnoccupiedLocation_returns 2 dice [Some (toPoint 1 1)] 0
           dice_unit_interval dice_fair Hroom).
Defined.

Lemma initGame_placement_pair :
  unit_interval dice ∧
  Z.of_nat (length (treasures pair)) + 2 ≤ 2 * 2 ∧
  fair 2 dice ∧
  ∃ (fuel : nat) (s' : game) (n' : nat),
    initGame 2 dice fuel pair 0 = Some (s', n') ∧
    treasures s' = treasures pair ∧ placed 2 s'.
Proof.
  assert (Hroom : Z.of_nat (length (treasures pair)) + 2 ≤ Z.pos 2 * Z.pos 2)
    by (cbn; lia).
  split; [exact dice_unit_interval|]. split; [exact Hroom|].
  split; [exact dice_fair|].
  destruct (initGame_placement 2 dice pair dice_unit_interval Hroom)
    as [Hends Hruns].
  destruct (Hruns dice_fair 0%nat) as (fuel & s' & n' & Hrun).
  exists fuel, s', n'. split; [exact Hrun|].
  exact (Hends fuel 0%nat s' n' Hrun).
Defined.

(** * More runs *)

Lemma chooseUnoccupiedLocation_first_free_samples :
  chooseUnoccupiedLocation 5 samples 10 [Some (toPoint 1 1); Some (toPoint 2 5)] 0
  = Some (toPoint 3 1,
          [Some (toPoint 1 1); Some (toPoint 2 5); Some (toPoint 3 1)], 4%nat) ∧
  ∃ m : nat,
    (m < 10)%nat ∧
    toPoint 3 1 = randomPoint 5 samples (0 + 2 * m) ∧
    (∀ k : nat, (k < m)%nat →
       Some (randomPoint 5 samples (0 + 2 * k))
       ∈ [Some (toPoint 1 1); Some (toPoint 2 5)]) ∧
    (Some (toPoint 3 1) ∉ [Some (toPoint 1 1); Some (toPoint 2 5)]) ∧
    [Some (toPoint 1 1); Some (toPoint 2 5); Some (toPoint 3 1)]
    = [Some (toPoint 1 1); Some (toPoint 2 5)] ++ [Some (toPoint 3 1)] ∧
    4%nat = (0 + 2 * S m)%nat.
Proof.
  assert (H : chooseUnoccupiedLocation 5 samples 10
                [Some (toPoint 1 1); Some (toPoint 2 5)] 0
              = Some (toPoint 3 1,
                      [Some (toPoint 1 1); Some (toPoint 2 5); Some (toPoint 3 1)],
                      4%nat))
    by (vm_compute; reflexivity).
  split; [exact H|].
  exact (chooseUnoccupiedLocation_first_free 5 samples _ _ _ _ _ _ H).
Defined.

Lemma start_continues_opening :
  start 5 samples 10 declared 0
  = Some (true, opening, [msg_location (toPoint 1 1)], 16%nat) ∧
  ∃ s' : game,
    initGame 5 samples 10 declared 0 = Some (s', 16%nat) ∧
    (true, opening, [msg_location (toPoint 1 1)])
    = (true, s',
       msg_location (toPoint 1 1) ::
       (if isAdjacent (monsterLocation s') (toPoint 1 1) then [msg_growl] else [])).
Proof.
  assert (H : start 5 samples 10 declared 0
              = Some (true, opening, [msg_location (toPoint 1 1)], 16%nat))
    by (vm_compute; reflexivity).
  split; [exact H|].
  exact (start_continues 5 samples _ _ _ _ _ H).
Defined.

(** At the start of [opening] the monster, in (2,5), is far from (1,1). *)
Lemma processCommand_safe_opening :
  isAdjacent (monsterLocation opening) (playerLocation opening) = false ∧
  playerLocation (after (processCommand 5 "d" opening)) ≠ monsterLocation opening ∧
  msg_death ∉ printed (processCommand 5 "d" opening).
Proof.
  assert (H : isAdjacent (monsterLocation opening) (playerLocation opening) = false)
    by reflexivity.
  split; [exact H|].
  exact (processCommand_safe 5 opening "d" H).
Defined.

(** The player of [opening] steps on the gem in (3,1). *)
Lemma enterLocation_remaining_gem :
  paired opening ∧ found_count_ok opening ∧
  printed (enterLocation (toPoint 3 1) opening)
  = [msg_location (toPoint 3 1); msg_found "gem"; msg_remaining 5] ∧
  (1 ≤ present (treasureLocations (after (enterLocation (toPoint 3 1) opening))))%nat ∧
  ∃ i : nat,
    findPoint (treasureLocations opening) (Some (toPoint 3 1)) = Some i ∧
    printed (enterLocation (toPoint 3 1) opening)
    = [msg_location (toPoint 3 1);
       msg_found (name_at (treasures opening) i);
       msg_remaining
         (Z.of_nat
            (present (treasureLocations (after (enterLocation (toPoint 3 1) opening)))))]
      ++ (if isAdjacent (monsterLocation opening) (toPoint 3 1)
          then [msg_growl] else []).
Proof.
  assert (Hlen : paired opening) by reflexivity.
  assert (Hok : found_count_ok opening) by (split; cbn; lia).
  assert (Hm : toPoint 3 1 ≠ monsterLocation opening) by discriminate.
  assert (Hin : Some (toPoint 3 1) ∈ treasureLocations opening)
    by apply list_elem_of_here.
  assert (Hrun : result (enterLocation (toPoint 3 1) opening) = true) by reflexivity.
  split; [exact Hlen|]. split; [exact Hok|]. split; [reflexivity|].
  exact (enterLocation_remaining opening (toPoint 3 1) Hlen Hok Hm Hin Hrun).
Defined.

(** One treasure is left, in (1,2), and the player steps on it. *)
Lemma enterLocation_win_last :
  paired (collected 0 lair) ∧ found_count_ok (collected 0 lair) ∧
  toPoint 1 2 ≠ monsterLocation (collected 0 lair) ∧
  (result (enterLocation (toPoint 1 2) (collected 0 lair)) = false ↔
   Some (toPoint 1 2) ∈ treasureLocations (collected 0 lair) ∧
   Forall (λ o, o = None)
     (treasureLocations (after (enterLocation (toPoint 1 2) (collected 0 lair))))) ∧
  result (enterLocation (toPoint 1 2) (collected 0 lair)) = false.
Proof.
  assert (Hlen : paired (collected 0 lair)) by reflexivity.
  assert (Hok : found_count_ok (collected 0 lair)) by (split; cbn; lia).
  assert (Hm : toPoint 1 2 ≠ monsterLocation (collected 0 lair)) by discriminate.
  split; [exact Hlen|]. split; [exact Hok|]. split; [exact Hm|].
  split; [|reflexivity].
  exact (enterLocation_win (collected 0 lair) (toPoint 1 2) Hlen Hok Hm).
Defined.

Lemma toString_inj_corner :
  toString (toPoint 1 1) = "(1, 1)" ∧ toPoint 1 1 = toPoint 1 1.
Proof.
  assert (H : toString (toPoint 1 1) = toString (toPoint 1 1)) by reflexivity.
  split; [reflexivity|].
  exact (toString_inj (toPoint 1 1) (toPoint 1 1) H).
Defined.

(** The coin of [lair] lies where the monster is; the gem is in (1,2). *)
Lemma enterLocation_names_gem :
  paired lair ∧ toPoint 1 2 ≠ monsterLocation lair ∧
  Some (toPoint 1 2) ∈ treasureLocations lair ∧
  ∃ (i : nat) (name : string),
    findPoint (treasureLocations lair) (Some (toPoint 1 2)) = Some i ∧
    treasures lair !! i = Some name ∧
    printed (enterLocation (toPoint 1 2) lair) !! 1%nat = Some (msg_found name).
Proof.
  assert (Hlen : paired lair) by reflexivity.
  assert (Hm : toPoint 1 2 ≠ monsterLocation lair) by discriminate.
  assert (Hin : Some (toPoint 1 2) ∈ treasureLocations lair)
    by (apply list_elem_of_further, list_elem_of_here).
  split; [exact Hlen|]. split; [exact Hm|]. split; [exact Hin|].
  exact (enterLocation_names lair (toPoint 1 2) Hlen Hm Hin).
Defined.

(** One treasure of [lair] is left, in (1,2); the player steps on it and
    wins. *)
Lemma enterLocation_stops_last :
  toPoint 1 2 ≠ monsterLocation (collected 0 lair) ∧
  Some (toPoint 1 2) ∈ treasureLocations (collected 0 lair) ∧
  foundTreasureCount (collected 0 lair) + 1
  = Z.of_nat (length (treasures (collected 0 lair))) ∧
  result (enterLocation (toPoint 1 2) (collected 0 lair)) = false ∧
  collects (collected 0 lair) (toPoint 1 2)
    (after (enterLocation (toPoint 1 2) (collected 0 lair))) ∧
  foundTreasureCount (after (enterLocation (toPoint 1 2) (collected 0 lair)))
  = Z.of_nat (length (treasures (collected 0 lair))) ∧
  ∃ i : nat,
    findPoint (treasureLocations (collected 0 lair)) (Some (toPoint 1 2)) = Some i ∧
    printed (enterLocation (toPoint 1 2) (collected 0 lair)) =
    [msg_location (toPoint 1 2);
     msg_found (name_at (treasures (collected 0 lair)) i);
     msg_win (Z.of_nat (length (treasures (collected 0 lair))))].
Proof.
  assert (Hm : toPoint 1 2 ≠ monsterLocation (collected 0 lair)) by discriminate.
  assert (Hin : Some (toPoint 1 2) ∈ treasureLocations (collected 0 lair))
    by (apply list_elem_of_further, list_elem_of_here).
  assert (Hc : foundTreasureCount (collected 0 lair) + 1
               = Z.of_nat (length (treasures (collected 0 lair)))) by reflexivity.
  split; [exact Hm|]. split; [exact Hin|]. split; [exact Hc|].
  exact (proj2 (proj2 (enterLocation_stops (collected 0 lair) (toPoint 1 2)))
           Hm Hin Hc).
Defined.
